(** * convert.go: bounded FIFO cache, binary/hex codec and line pipeline

    A shallow embedding of [src/convert.go] and the properties of its
    specification.  Go strings are byte sequences and are modelled by
    [string] (a sequence of 8-bit [ascii] characters); a Go [byte] is a [Z]
    in [0, 256) with its wrap-around written out; a Go [map[string]string]
    is a [gmap string string]; a slice is a [list].  A run-time panic of the
    Go program (index out of range, makeslice) is an explicit outcome. *)

From Stdlib Require Import ZArith Ascii String List Lia Bool.
From stdpp Require Import base option list gmap strings fin_maps.

Local Open Scope Z_scope.

(** ** Outcomes: normal completion or a run-time panic *)

Inductive panic : Type :=
  | IndexOutOfRange (index len : nat)
  | MakesliceCapOutOfRange.

Inductive outcome (A : Type) : Type :=
  | Done (a : A)
  | Panic (p : panic).
Arguments Done {A} a.
Arguments Panic {A} p.

#[global] Instance outcome_ret : MRet outcome := fun A a => Done a.
#[global] Instance outcome_bind : MBind outcome := fun A B f m =>
  match m with
  | Done a => f a
  | Panic p => Panic p
  end.

(** [s[i]] on a slice: panics when the index is out of range. *)
Definition index {A : Type} (s : list A) (i : nat) : outcome A :=
  match s !! i with
  | Some x => Done x
  | None => Panic (IndexOutOfRange i (length s))
  end.

(** [s[i] = x] on a slice: panics when the index is out of range. *)
Definition store {A : Type} (s : list A) (i : nat) (x : A) : outcome (list A) :=
  if decide (i < length s)%nat then Done (<[i := x]> s)
  else Panic (IndexOutOfRange i (length s)).

(** Go's [error] values that this program can return. *)
Inductive error : Type :=
  | ErrLength
  | InvalidByteError (c : ascii)
  | IOError (msg : string).

(** ** The cache (convert.go, lines 12-45) *)

Record Cache : Type := mkCache {
  maxEntries : Z;
  entries : gmap string string;
  keys : list string
}.

(** The runtime's [makeslice] behind [make([]string, 0, maxEntries)]: it
    panics (makeslice: cap out of range) when the capacity is negative and
    when the bytes of the backing array, 16 for each string header, exceed
    [maxAlloc], which is 2^48 on the 64-bit platforms (amd64, arm64).  A
    machine that runs out of memory below that limit stops the program with
    a fatal error; that is not part of the model. *)
Definition string_size : Z := 16.
Definition maxAlloc : Z := 2 ^ 48.

Definition NewCache (maxEntries : Z) : outcome Cache :=
  if (maxEntries <? 0) || (maxAlloc <? string_size * maxEntries)
  then Panic MakesliceCapOutOfRange
  else Done {| maxEntries := maxEntries; entries := ∅; keys := [] |}.

(** [val, exists := c.entries[key]]: a missing key reads as the zero value. *)
Definition Cache_Get (c : Cache) (key : string) : string * bool :=
  match entries c !! key with
  | Some val => (val, true)
  | None => (EmptyString, false)
  end.

Definition Cache_Set (c : Cache) (key value : string) : outcome Cache :=
  match entries c !! key with
  | Some _ => Done c
  | None =>
      c1 ← (if maxEntries c <=? Z.of_nat (size (entries c)) then
              oldestKey ← index (keys c) 0;
              Done {| maxEntries := maxEntries c;
                      entries := delete oldestKey (entries c);
                      keys := drop 1 (keys c) |}
            else Done c);
      Done {| maxEntries := maxEntries c1;
              entries := <[key := value]> (entries c1);
              keys := keys c1 ++ [key] |}
  end.

(** Operations a client can issue on a cache, and their sequential runs. *)
Inductive op : Type :=
  | OpGet (key : string)
  | OpSet (key value : string).

Definition run_op (c : Cache) (o : op) : outcome Cache :=
  match o with
  | OpGet key => let _ := Cache_Get c key in Done c
  | OpSet key value => Cache_Set c key value
  end.

Fixpoint run_ops (c : Cache) (os : list op) : outcome Cache :=
  match os with
  | [] => Done c
  | o :: os' => c' ← run_op c o; run_ops c' os'
  end.

(** The keys whose [Set] found them absent, in the order of those calls:
    the insertion log of a run. *)
Fixpoint insertions (c : Cache) (os : list op) : list string :=
  match os with
  | [] => []
  | o :: os' =>
      let fresh := match o with
                   | OpSet key _ =>
                       if snd (Cache_Get c key) then [] else [key]
                   | OpGet _ => []
                   end in
      match run_op c o with
      | Done c' => fresh ++ insertions c' os'
      | Panic _ => fresh
      end
  end.

(** ** Bytes and strings *)

Definition byte_of_ascii (c : ascii) : Z := Z.of_N (N_of_ascii c).
Definition ascii_of_byte (b : Z) : ascii := ascii_of_N (Z.to_N b).

(** Arithmetic on [byte] (uint8) wraps around modulo 256. *)
Definition byte_wrap (z : Z) : Z := z mod 256.

(** [s[i]] on a string yields the byte at [i]; out of range it panics. *)
Definition str_index (s : string) (i : nat) : outcome Z :=
  match String.get i s with
  | Some c => Done (byte_of_ascii c)
  | None => Panic (IndexOutOfRange i (String.length s))
  end.

Definition newline : string := String (ascii_of_nat 10) EmptyString.

(** ** Library functions the program calls *)

(** [encoding/hex]: [hextable[v>>4]], [hextable[v&0x0f]] for each byte. *)
Definition hextable : string := "0123456789abcdef".

Definition hexdigit (n : Z) : ascii :=
  match String.get (Z.to_nat n) hextable with
  | Some c => c
  | None => Ascii.zero
  end.

Fixpoint hex_EncodeToString (src : list Z) : string :=
  match src with
  | [] => EmptyString
  | v :: rest =>
      String (hexdigit (Z.shiftr v 4))
        (String (hexdigit (Z.land v 15)) (hex_EncodeToString rest))
  end.

(** [encoding/hex]: the value of a hex digit of either case. *)
Definition fromHexChar (c : ascii) : option Z :=
  let b := byte_of_ascii c in
  if (48 <=? b) && (b <=? 57) then Some (b - 48)
  else if (97 <=? b) && (b <=? 102) then Some (b - 97 + 10)
  else if (65 <=? b) && (b <=? 70) then Some (b - 65 + 10)
  else None.

(** [hex.DecodeString]: the bytes decoded before the first error, and the
    error: an invalid byte, or an odd length once the digits are all valid. *)
Fixpoint hex_DecodeString (s : string) : list Z * option error :=
  match s with
  | EmptyString => ([], None)
  | String p EmptyString =>
      match fromHexChar p with
      | None => ([], Some (InvalidByteError p))
      | Some _ => ([], Some ErrLength)
      end
  | String p (String q rest) =>
      match fromHexChar p with
      | None => ([], Some (InvalidByteError p))
      | Some a =>
          match fromHexChar q with
          | None => ([], Some (InvalidByteError q))
          | Some b =>
              let '(bytes, err) := hex_DecodeString rest in
              (Z.lor (Z.shiftl a 4) b :: bytes, err)
          end
      end
  end.

(** [strings.ToUpper] on ASCII text, which is all this program passes to it
    (the output of [hex.EncodeToString]): letters [a]-[z] lose 32. *)
Definition upper_ascii (c : ascii) : ascii :=
  let b := byte_of_ascii c in
  if (97 <=? b) && (b <=? 122) then ascii_of_byte (b - 32) else c.

Fixpoint strings_ToUpper (s : string) : string :=
  match s with
  | EmptyString => EmptyString
  | String c s' => String (upper_ascii c) (strings_ToUpper s')
  end.

(** [strings.Split(s, sep)] for a one-byte separator: the substrings between
    the separators, [[s]] when there is none. *)
Fixpoint strings_Split (s : string) (sep : ascii) : list string :=
  match s with
  | EmptyString => [EmptyString]
  | String c s' =>
      if Ascii.eqb c sep then EmptyString :: strings_Split s' sep
      else match strings_Split s' sep with
           | part :: parts => String c part :: parts
           | [] => [String c EmptyString]
           end
  end.

(** [fmt.Sprintf("%08b", b)]: the binary digits of [b], most significant
    first, padded with zeros on the left to a width of 8 (after the sign). *)
Fixpoint bin_digits (p : positive) (acc : string) : string :=
  match p with
  | xH => String "1" acc
  | xO p' => bin_digits p' (String "0" acc)
  | xI p' => bin_digits p' (String "1" acc)
  end.

Definition pad_zero (width : nat) (s : string) : string :=
  string_of_list_ascii (replicate (width - String.length s) "0"%char) +:+ s.

Definition fmt_Sprintf_08b (b : Z) : string :=
  match b with
  | Z0 => pad_zero 8 "0"
  | Zpos p => pad_zero 8 (bin_digits p EmptyString)
  | Zneg p => String "-" (pad_zero 7 (bin_digits p EmptyString))
  end.

(** [fmt.Sprintf("%s:%s", a, b)] *)
Definition fmt_Sprintf_s_colon_s (a b : string) : string := a +:+ ":" +:+ b.

(** ** The codec (convert.go, lines 47-71) *)

(** The inner loop
    [for j := 0; j < 8 && i+j < len(binStr); j++ { binByte = binByte<<1 | (binStr[i+j] - '0') }].
    It runs at most 8 times; [fuel] bounds the iterations. *)
Fixpoint binToHex_byte (fuel : nat) (binStr : string) (i j : nat) (binByte : Z)
  : outcome Z :=
  match fuel with
  | O => Done binByte
  | S fuel' =>
      if (j <? 8)%nat && (i + j <? String.length binStr)%nat then
        c ← str_index binStr (i + j);
        binToHex_byte fuel' binStr i (S j)
          (Z.lor (byte_wrap (Z.shiftl binByte 1)) (byte_wrap (c - 48)))
      else Done binByte
  end.

(** The outer loop [for i := 0; i < len(binStr); i += 8 { ... binBytes[i/8] = binByte }]. *)
Fixpoint binToHex_loop (fuel : nat) (binStr : string) (i : nat) (binBytes : list Z)
  : outcome (list Z) :=
  match fuel with
  | O => Done binBytes
  | S fuel' =>
      if (i <? String.length binStr)%nat then
        binByte ← binToHex_byte 8 binStr i 0 0;
        binBytes' ← store binBytes (i / 8) binByte;
        binToHex_loop fuel' binStr (i + 8) binBytes'
      else Done binBytes
  end.

Definition binToHex (binStr : string) : outcome (string * option error) :=
  let binBytes := replicate ((String.length binStr + 7) / 8) 0 in
  binBytes' ← binToHex_loop (String.length binStr) binStr 0 binBytes;
  Done (strings_ToUpper (hex_EncodeToString binBytes'), None).

Definition hexToBin (hexStr : string) : string * option error :=
  let '(bytes, err) := hex_DecodeString hexStr in
  match err with
  | Some e => (EmptyString, Some e)
  | None =>
      (fold_left (fun binStr b => binStr +:+ fmt_Sprintf_08b b) bytes EmptyString,
       None)
  end.

(** ** The line pipeline (convert.go, lines 73-144) *)

(** What the environment gives a run: whether the files open, the lines the
    scanner yields (newline-stripped), and the scanner's final error. *)
Record source : Type := mkSource {
  openErr : option error;
  createErr : option error;
  scanned : list string;
  scanErr : option error
}.

(** What a run leaves: the text passed to [writer.WriteString], whether
    [writer.Flush] was reached, and the returned error. *)
Record result : Type := mkResult {
  written : string;
  flushed : bool;
  ret : option error
}.

Fixpoint convertWithCache_scan (lines : list string) (scanErr : option error)
    (cache : Cache) (w : string) : outcome (Cache * result) :=
  match lines with
  | [] => Done (cache, {| written := w; flushed := true; ret := scanErr |})
  | line :: rest =>
      match Cache_Get cache line with
      | (cachedValue, true) =>
          convertWithCache_scan rest scanErr cache (w +:+ (cachedValue +:+ newline))
      | (_, false) =>
          let parts := strings_Split line ":" in
          matrixSize ← index parts 0;
          binaryStr ← index parts 1;
          '(hexStr, err) ← binToHex binaryStr;
          match err with
          | Some e => Done (cache, {| written := w; flushed := false; ret := Some e |})
          | None =>
              let newLine := fmt_Sprintf_s_colon_s matrixSize hexStr in
              cache' ← Cache_Set cache line newLine;
              convertWithCache_scan rest scanErr cache' (w +:+ (newLine +:+ newline))
          end
      end
  end.

Definition convertWithCache (src : source) (cache : Cache) : outcome (Cache * result) :=
  match openErr src with
  | Some e => Done (cache, {| written := EmptyString; flushed := false; ret := Some e |})
  | None =>
      match createErr src with
      | Some e => Done (cache, {| written := EmptyString; flushed := false; ret := Some e |})
      | None => convertWithCache_scan (scanned src) (scanErr src) cache EmptyString
      end
  end.

Fixpoint convertWithoutCache_scan (lines : list string) (scanErr : option error)
    (w : string) : outcome result :=
  match lines with
  | [] => Done {| written := w; flushed := true; ret := scanErr |}
  | line :: rest =>
      let parts := strings_Split line ":" in
      matrixSize ← index parts 0;
      binaryStr ← index parts 1;
      '(hexStr, err) ← binToHex binaryStr;
      match err with
      | Some e => Done {| written := w; flushed := false; ret := Some e |}
      | None =>
          let newLine := fmt_Sprintf_s_colon_s matrixSize hexStr in
          convertWithoutCache_scan rest scanErr (w +:+ (newLine +:+ newline))
      end
  end.

Definition convertWithoutCache (src : source) : outcome result :=
  match openErr src with
  | Some e => Done {| written := EmptyString; flushed := false; ret := Some e |}
  | None =>
      match createErr src with
      | Some e => Done {| written := EmptyString; flushed := false; ret := Some e |}
      | None => convertWithoutCache_scan (scanned src) (scanErr src) EmptyString
      end
  end.

(** The cache of [main] and the cached pipeline on it. *)
Definition main_cached (cacheSize : Z) (src : source) : outcome (Cache * result) :=
  cache ← NewCache cacheSize;
  convertWithCache src cache.

(** ** Vocabulary of the specification *)

Definition chars (s : string) : list ascii := list_ascii_of_string s.

Definition is_bit (c : ascii) : bool :=
  Ascii.eqb c "0" || Ascii.eqb c "1".

(** A bit string: every character is ['0'] or ['1']. *)
Definition is_bitstring (s : string) : bool := forallb is_bit (chars s).

(** A hex digit of either case. *)
Definition is_hexdigit (c : ascii) : bool :=
  existsb (Ascii.eqb c) (chars "0123456789abcdefABCDEF").

(** A valid hex string: even length, hex digits only. *)
Definition is_hexstring (s : string) : bool :=
  Nat.even (String.length s) && forallb is_hexdigit (chars s).

(** [n] characters ['0']. *)
Definition zeros (n : nat) : string := string_of_list_ascii (replicate n "0"%char).

(** The first [n] characters of [s], and [s] without them. *)
Definition str_take (n : nat) (s : string) : string := String.substring 0 n s.
Definition str_drop (n : nat) (s : string) : string :=
  String.substring n (String.length s - n) s.

(** Whether [c] occurs in [s]. *)
Definition contains (s : string) (c : ascii) : bool := existsb (Ascii.eqb c) (chars s).

(** The text before the first [sep] (all of [s] when there is none). *)
Fixpoint before_first (sep : ascii) (s : string) : string :=
  match s with
  | EmptyString => EmptyString
  | String c s' => if Ascii.eqb c sep then EmptyString else String c (before_first sep s')
  end.

(** The whole text after the first [sep], if there is one. *)
Fixpoint after_first (sep : ascii) (s : string) : option string :=
  match s with
  | EmptyString => None
  | String c s' => if Ascii.eqb c sep then Some s' else after_first sep s'
  end.

(** A well-formed record line: it has a [':'] and what follows the first one
    is a bit string. *)
Definition well_formed_line (line : string) : bool :=
  match after_first ":" line with
  | Some payload => is_bitstring payload
  | None => false
  end.

(** The decode-after-encode round trip of the codec. *)
Definition decode_encode (b : string) : outcome (string * option error) :=
  '(h, _) ← binToHex b;
  Done (hexToBin h).

(** The encode-after-decode round trip of the codec. *)
Definition encode_decode (h : string) : outcome (string * option error) :=
  binToHex (fst (hexToBin h)).

(** The run of a list of [Set] calls on the cache made by [NewCache]. *)
Definition sets (kvs : list (string * string)) : list op :=
  map (fun kv => OpSet (fst kv) (snd kv)) kvs.

Definition run_new (capacity : Z) (os : list op) : outcome Cache :=
  c ← NewCache capacity;
  run_ops c os.

(** The cache that [NewCache] returns for a capacity that [makeslice]
    accepts. *)
Definition empty_cache (capacity : Z) : Cache :=
  {| maxEntries := capacity; entries := ∅; keys := [] |}.

(** A source whose files open and whose scanner yields [lines]. *)
Definition lines_source (lines : list string) (scanErr : option error) : source :=
  {| openErr := None; createErr := None; scanned := lines; scanErr := scanErr |}.

(** *** The claims on padding, validation and splitting, as the
    specification words them *)

(** Padding appended at the end: the round trip returns [b] followed by
    zero bits up to the next multiple of 8. *)
Definition trailing_padding_roundtrip (b : string) : Prop :=
  decode_encode b =
    Done (b +:+ zeros (8 * ((String.length b + 7) / 8) - String.length b), None).

(** [encode] rejects a string with a character outside ['0'], ['1']. *)
Definition encode_rejects (s : string) : Prop :=
  ∃ (h : string) (e : error), binToHex s = Done (h, Some e).

(** The payload handed to [encode] is everything after the first [':'], and
    the size token goes to the output unchanged. *)
Definition payload_is_rest_of_line (line : string) : Prop :=
  ∃ (payload hexStr : string),
    after_first ":" line = Some payload ∧
    binToHex payload = Done (hexStr, None) ∧
    convertWithoutCache (lines_source [line] None) =
      Done {| written := fmt_Sprintf_s_colon_s (before_first ":" line) hexStr +:+ newline;
              flushed := true; ret := None |}.

(** ** Functional descriptions used in the proofs *)

(** One step of the inner loop of [binToHex], and a whole group. *)
Definition shift_in (acc : Z) (c : ascii) : Z :=
  Z.lor (byte_wrap (Z.shiftl acc 1)) (byte_wrap (byte_of_ascii c - 48)).

Definition pack_group (g : list ascii) : Z := fold_left shift_in g 0.

(** The byte of the [q]-th group of 8 characters of [l]. *)
Definition pack_at (l : list ascii) (q : nat) : Z :=
  pack_group (take 8 (drop (8 * q) l)).

Definition pack (l : list ascii) : list Z :=
  map (pack_at l) (seq 0 ((length l + 7) / 8)).

(** The digits that [hexToBin] renders for a byte sequence. *)
Definition bits_of_bytes (bs : list Z) : list ascii :=
  concat (map (fun b => chars (fmt_Sprintf_08b b)) bs).

(** What either pipeline computes for one line that misses the cache. *)
Definition line_output (line : string) : outcome (string * option error) :=
  let parts := strings_Split line ":" in
  matrixSize ← index parts 0;
  binaryStr ← index parts 1;
  '(hexStr, err) ← binToHex binaryStr;
  Done (fmt_Sprintf_s_colon_s matrixSize hexStr, err).

(** The result of the cached loop without its cache. *)
Definition forget_cache (r : outcome (Cache * result)) : outcome result :=
  '(_, res) ← r; Done res.

(** The cache invariant of the specification. *)
Record cache_inv (c : Cache) : Prop := mkCacheInv {
  inv_capacity : 1 <= maxEntries c;
  inv_size : Z.of_nat (size (entries c)) <= maxEntries c;
  inv_nodup : NoDup (keys c);
  inv_dom : ∀ k : string, k ∈ keys c ↔ is_Some (entries c !! k)
}.

(** Every stored value is the output line of its key. *)
Definition cache_sound (c : Cache) : Prop :=
  ∀ (k v : string), entries c !! k = Some v → line_output k = Done (v, None).

(** The tail of an insertion log that fits the capacity, oldest insertion
    first. *)
Definition recent (capacity : Z) (log : list string) : list string :=
  drop (length log - Z.to_nat capacity) log.

(** ** The program entry (convert.go, lines 146-190) *)

(** A line that [main] prints.  The seconds of a timing line are those of
    the clock and are not part of the model. *)
Inductive stdout_line : Type :=
  | Usage
  | ErrorLine (e : error)
  | Took (what : string)
  | UnknownMode.

(** What a run of [main] leaves: the lines printed and, when a pipeline
    ran, its result. *)
Record process : Type := mkProcess {
  stdout : list stdout_line;
  converted : option result
}.

(** [if err != nil { fmt.Println("Error:", err) }] and the timing line. *)
Definition report (what : string) (r : result) : process :=
  {| stdout := match ret r with
               | Some e => [ErrorLine e]
               | None => []
               end ++ [Took what];
     converted := Some r |}.

Section program.
(** [fmt.Sscanf(s, "%d", &n)]: the integer stored, if the scan succeeds. *)
Variable Sscanf_d : string → option Z.
(** What the environment holds for an input and an output file name. *)
Variable files : string → string → source.

Definition main (args : list string) : outcome process :=
  if (length args <? 4)%nat then
    Done {| stdout := [Usage]; converted := None |}
  else
    mode ← index args 1;
    inputFile ← index args 2;
    outputFile ← index args 3;
    cacheSize ← (if (5 <=? length args)%nat then
                   arg ← index args 4;
                   Done (match Sscanf_d arg with
                         | Some n => n
                         | None => 5000
                         end)
                 else Done 5000);
    cache ← NewCache cacheSize;
    if String.eqb mode "compress-cached" then
      '(_, r) ← convertWithCache (files inputFile outputFile) cache;
      Done (report "Cached conversion" r)
    else if String.eqb mode "compress-noncached" then
      r ← convertWithoutCache (files inputFile outputFile);
      Done (report "Non-cached conversion" r)
    else if String.eqb mode "decompress-cached" then
      '(_, r) ← convertWithCache (files inputFile outputFile) cache;
      Done (report "Cached decompression" r)
    else if String.eqb mode "decompress-noncached" then
      r ← convertWithoutCache (files inputFile outputFile);
      Done (report "Non-cached decompression" r)
    else Done {| stdout := [UnknownMode]; converted := None |}.
End program.

(** The pipeline result of a run of [main], without the printed lines. *)
Definition conversion_of (o : outcome process) : outcome (option result) :=
  p ← o; Done (converted p).

(** ** Further vocabulary *)

(** An upper-case hex digit. *)
Definition is_upper_hexdigit (c : ascii) : bool :=
  existsb (Ascii.eqb c) (chars "0123456789ABCDEF").

(** The concatenation of a list of strings. *)
Definition str_concat (l : list string) : string := foldr String.append EmptyString l.

(** The output line of a record line: size token, [':'], the encoding of
    the text between the first and the second [':'], and a newline. *)
Definition is_output_of (line out : string) : Prop :=
  ∃ (rest hexStr : string),
    after_first ":" line = Some rest ∧
    binToHex (before_first ":" rest) = Done (hexStr, None) ∧
    String.length hexStr = (2 * ((String.length (before_first ":" rest) + 7) / 8))%nat ∧
    out = before_first ":" line +:+ ":" +:+ hexStr +:+ newline.

(** The first value paired with [k] in a list of pairs. *)
Fixpoint first_value (k : string) (kvs : list (string * string)) : option string :=
  match kvs with
  | [] => None
  | (k', v) :: rest => if decide (k' = k) then Some v else first_value k rest
  end.

(** * Properties *)

Lemma bind_Done {A B : Type} (a : A) (f : A → outcome B) : (Done a ≫= f) = f a.
Proof. reflexivity. Qed.

Lemma bind_Panic {A B : Type} (p : panic) (f : A → outcome B) :
  (Panic p ≫= f) = Panic p.
Proof. reflexivity. Qed.

(** ** The model on concrete inputs *)

Example binToHex_A : binToHex "01000001" = Done ("41", None).
Proof. reflexivity. Qed.

Example binToHex_partial_group : binToHex "010000011" = Done ("4101", None).
Proof. reflexivity. Qed.

Example binToHex_empty : binToHex EmptyString = Done (EmptyString, None).
Proof. reflexivity. Qed.

Example hexToBin_mixed_case : hexToBin "aF" = ("10101111", None).
Proof. reflexivity. Qed.

Example hexToBin_odd_length : hexToBin "414" = (EmptyString, Some ErrLength).
Proof. reflexivity. Qed.

Example hexToBin_invalid_byte :
  hexToBin "4g" = (EmptyString, Some (InvalidByteError "g")).
Proof. reflexivity. Qed.

Example strings_Split_three : strings_Split "4:01:10" ":" = ["4"; "01"; "10"].
Proof. reflexivity. Qed.

Example strings_Split_no_sep : strings_Split "abc" ":" = ["abc"].
Proof. reflexivity. Qed.

Example strings_ToUpper_hex : strings_ToUpper "dead09BEef" = "DEAD09BEEF".
Proof. reflexivity. Qed.

Example fmt_Sprintf_08b_five : fmt_Sprintf_08b 5 = "00000101".
Proof. reflexivity. Qed.

Example NewCache_default : NewCache 5000 = Done (empty_cache 5000).
Proof. reflexivity. Qed.

Example NewCache_negative : NewCache (-1) = Panic MakesliceCapOutOfRange.
Proof. reflexivity. Qed.

Example NewCache_huge : NewCache (2 ^ 45) = Panic MakesliceCapOutOfRange.
Proof. reflexivity. Qed.

Example Cache_Set_evicts_oldest :
  (c ← NewCache 1; c ← Cache_Set c "a" "x"; c ← Cache_Set c "b" "y";
   Done (keys c, Cache_Get c "a", Cache_Get c "b"))
  = Done (["b"], (EmptyString, false), ("y", true)).
Proof. vm_compute. reflexivity. Qed.

(** ** The cache *)

Section cache_facts.
Implicit Types (c : Cache) (k key value : string).

Lemma NewCache_done (capacity : Z) :
  0 <= capacity → string_size * capacity <= maxAlloc →
  NewCache capacity = Done (empty_cache capacity).
Proof.
  intros Hc Hmax. unfold NewCache.
  destruct (Z.ltb_spec capacity 0); [lia |].
  destruct (Z.ltb_spec maxAlloc (string_size * capacity)); [lia | reflexivity].
Qed.

(** A cache that [NewCache] returned is the empty cache of its capacity. *)
Lemma NewCache_returned (capacity : Z) c :
  NewCache capacity = Done c → c = empty_cache capacity.
Proof.
  unfold NewCache.
  destruct ((capacity <? 0) || (maxAlloc <? string_size * capacity));
    [discriminate | by intros [= <-]].
Qed.

(** Beyond the limit of [makeslice] there is no cache. *)
Lemma NewCache_too_large (capacity : Z) :
  maxAlloc < string_size * capacity →
  NewCache capacity = Panic MakesliceCapOutOfRange.
Proof.
  intros Hmax. unfold NewCache.
  destruct (Z.ltb_spec maxAlloc (string_size * capacity)); [| lia].
  by rewrite orb_true_r.
Qed.

Lemma Cache_Get_lookup c k :
  Cache_Get c k = match entries c !! k with
                  | Some v => (v, true)
                  | None => (EmptyString, false)
                  end.
Proof. reflexivity. Qed.

Lemma Cache_Get_found c k v :
  Cache_Get c k = (v, true) ↔ entries c !! k = Some v.
Proof.
  unfold Cache_Get. destruct (entries c !! k); split; intros H; congruence.
Qed.

Lemma Cache_Get_missing c k :
  snd (Cache_Get c k) = false ↔ entries c !! k = None.
Proof.
  unfold Cache_Get. destruct (entries c !! k); simpl; split; congruence.
Qed.

Lemma Cache_Set_present c key value old :
  entries c !! key = Some old → Cache_Set c key value = Done c.
Proof. intros H. unfold Cache_Set. by rewrite H. Qed.

(** The keys list is as long as the map is large. *)
Lemma inv_length c : cache_inv c → length (keys c) = size (entries c).
Proof.
  intros [_ _ Hnd Hdom].
  rewrite <- size_dom, <- (size_list_to_set (C := gset string) (keys c)) by done.
  f_equal. apply set_eq. intros k.
  rewrite elem_of_list_to_set, elem_of_dom. apply Hdom.
Qed.

(** [Set] of an absent key below capacity appends it. *)
Lemma Cache_Set_room c key value :
  entries c !! key = None →
  Z.of_nat (size (entries c)) < maxEntries c →
  Cache_Set c key value =
    Done {| maxEntries := maxEntries c;
            entries := <[key := value]> (entries c);
            keys := keys c ++ [key] |}.
Proof.
  intros Hk Hlt. unfold Cache_Set. rewrite Hk.
  destruct (Z.leb_spec (maxEntries c) (Z.of_nat (size (entries c)))); [lia |].
  reflexivity.
Qed.

(** [Set] of an absent key at capacity evicts the head of [keys]. *)
Lemma Cache_Set_full c key value oldest ks :
  entries c !! key = None →
  maxEntries c <= Z.of_nat (size (entries c)) →
  keys c = oldest :: ks →
  Cache_Set c key value =
    Done {| maxEntries := maxEntries c;
            entries := <[key := value]> (delete oldest (entries c));
            keys := ks ++ [key] |}.
Proof.
  intros Hk Hge Hks. unfold Cache_Set. rewrite Hk.
  destruct (Z.leb_spec (maxEntries c) (Z.of_nat (size (entries c)))); [| lia].
  rewrite Hks. reflexivity.
Qed.

(** The three ways a [Set] can go on a cache that satisfies the invariant. *)
Lemma Cache_Set_cases c key value :
  cache_inv c →
  (is_Some (entries c !! key) ∧ Cache_Set c key value = Done c)
  ∨ (entries c !! key = None ∧ Z.of_nat (size (entries c)) < maxEntries c ∧
     Cache_Set c key value =
       Done {| maxEntries := maxEntries c;
               entries := <[key := value]> (entries c);
               keys := keys c ++ [key] |})
  ∨ (entries c !! key = None ∧ maxEntries c <= Z.of_nat (size (entries c)) ∧
     ∃ oldest ks, keys c = oldest :: ks ∧
       Cache_Set c key value =
         Done {| maxEntries := maxEntries c;
                 entries := <[key := value]> (delete oldest (entries c));
                 keys := ks ++ [key] |}).
Proof.
  intros Hinv.
  destruct (entries c !! key) as [old|] eqn:Hk.
  - left. split; [eauto | by eapply Cache_Set_present].
  - right.
    destruct (Z.lt_ge_cases (Z.of_nat (size (entries c))) (maxEntries c)) as [Hlt|Hge].
    + left. split_and!; [done | done | by apply Cache_Set_room].
    + right. split_and!; [done | done |].
      pose proof (inv_length c Hinv) as Hlen.
      pose proof (inv_capacity c Hinv) as Hcap.
      destruct (keys c) as [|oldest ks] eqn:Hks; [simpl in Hlen; lia |].
      exists oldest, ks. split; [done |].
      by apply Cache_Set_full.
Qed.

Lemma cache_inv_room c key value :
  cache_inv c → entries c !! key = None →
  Z.of_nat (size (entries c)) < maxEntries c →
  cache_inv {| maxEntries := maxEntries c;
               entries := <[key := value]> (entries c);
               keys := keys c ++ [key] |}.
Proof.
  intros [Hcap Hsz Hnd Hdom] Hk Hlt. constructor; simpl.
  - done.
  - rewrite map_size_insert_None by done. lia.
  - apply NoDup_app. split_and!; [done | | apply NoDup_singleton].
    intros x Hx ->%list_elem_of_singleton.
    apply Hdom in Hx. rewrite Hk in Hx. by destruct Hx.
  - intros k. rewrite elem_of_app, list_elem_of_singleton, Hdom.
    destruct (decide (k = key)) as [->|Hne].
    + rewrite lookup_insert_eq. split; [eauto | by right].
    + rewrite lookup_insert_ne by done. tauto.
Qed.

Lemma cache_inv_full c key value oldest ks :
  cache_inv c → entries c !! key = None →
  keys c = oldest :: ks →
  cache_inv {| maxEntries := maxEntries c;
               entries := <[key := value]> (delete oldest (entries c));
               keys := ks ++ [key] |}.
Proof.
  intros [Hcap Hsz Hnd Hdom] Hk Hks. rewrite Hks in Hnd, Hdom.
  apply NoDup_cons in Hnd as [Hnotin Hnd].
  assert (is_Some (entries c !! oldest)) as [vo Hvo]
    by (apply Hdom; left).
  assert (oldest ≠ key) as Hne by (intros ->; congruence).
  constructor; simpl.
  - done.
  - rewrite map_size_insert_None by (by rewrite lookup_delete_ne).
    pose proof (map_size_delete_Some oldest (entries c) (mk_is_Some _ _ Hvo)) as Hd0.
    assert (size (entries c) ≠ 0)%nat
      by (intros Hz; apply map_size_empty_inv in Hz; rewrite Hz in Hvo; done).
    lia.
  - apply NoDup_app. split_and!; [done | | apply NoDup_singleton].
    intros x Hx ->%list_elem_of_singleton.
    assert (is_Some (entries c !! key)) as [? ?] by (apply Hdom; by right).
    congruence.
  - intros k. rewrite elem_of_app, list_elem_of_singleton.
    destruct (decide (k = key)) as [->|Hnk].
    + rewrite lookup_insert_eq. split; [eauto | by right].
    + rewrite lookup_insert_ne by done.
      destruct (decide (k = oldest)) as [->|Hno].
      * rewrite lookup_delete_eq. split; [| by intros []].
        intros [?|?]; done.
      * rewrite lookup_delete_ne by done. rewrite <- Hdom.
        rewrite elem_of_cons. tauto.
Qed.

Lemma cache_inv_Set c key value :
  cache_inv c → ∃ c', Cache_Set c key value = Done c' ∧ cache_inv c'
                      ∧ maxEntries c' = maxEntries c.
Proof.
  intros Hinv.
  destruct (Cache_Set_cases c key value Hinv)
    as [[_ ->] | [(Hk & Hlt & ->) | (Hk & Hge & oldest & ks & Hks & ->)]].
  - eauto.
  - eexists. split_and!; [done | by apply cache_inv_room | done].
  - eexists. split_and!; [done | by eapply cache_inv_full | done].
Qed.

Lemma cache_inv_empty (capacity : Z) :
  1 <= capacity → cache_inv (empty_cache capacity).
Proof.
  intros Hc. constructor; simpl.
  - done.
  - rewrite map_size_empty. lia.
  - constructor.
  - intros k. rewrite lookup_empty. split; [by intros ?%elem_of_nil | by intros []].
Qed.
End cache_facts.

Section cache_runs.
Implicit Types (c : Cache) (k key value : string) (os : list op).

Lemma run_op_inv c o :
  cache_inv c →
  ∃ c', run_op c o = Done c' ∧ cache_inv c' ∧ maxEntries c' = maxEntries c.
Proof.
  intros Hinv. destruct o as [key | key value]; simpl.
  - eauto.
  - by apply cache_inv_Set.
Qed.

Lemma run_ops_inv os : ∀ c,
  cache_inv c →
  ∃ c', run_ops c os = Done c' ∧ cache_inv c' ∧ maxEntries c' = maxEntries c.
Proof.
  induction os as [|o os IH]; intros c Hinv; simpl.
  - eauto.
  - destruct (run_op_inv c o Hinv) as (c1 & -> & Hinv1 & Hmax1). simpl.
    destruct (IH c1 Hinv1) as (c2 & -> & Hinv2 & Hmax2).
    exists c2. split_and!; [done | done | congruence].
Qed.

Lemma recent_length capacity log :
  length (recent capacity log) = (length log `min` Z.to_nat capacity)%nat.
Proof. unfold recent. rewrite length_drop. lia. Qed.

Lemma recent_snoc_room capacity log key :
  (length log < Z.to_nat capacity)%nat →
  recent capacity (log ++ [key]) = recent capacity log ++ [key].
Proof.
  intros Hlt. unfold recent. rewrite length_app. simpl.
  replace (length log + 1 - Z.to_nat capacity)%nat with 0%nat by lia.
  replace (length log - Z.to_nat capacity)%nat with 0%nat by lia.
  reflexivity.
Qed.

Lemma recent_snoc_full capacity log key :
  1 <= capacity → (Z.to_nat capacity <= length log)%nat →
  recent capacity (log ++ [key]) = drop 1 (recent capacity log) ++ [key].
Proof.
  intros Hc Hge. unfold recent. rewrite length_app. simpl.
  rewrite drop_drop.
  replace (length log + 1 - Z.to_nat capacity)%nat
    with (length log - Z.to_nat capacity + 1)%nat by lia.
  rewrite drop_app_le by lia. reflexivity.
Qed.

Lemma run_op_log c o log :
  cache_inv c → keys c = recent (maxEntries c) log →
  ∃ c', run_op c o = Done c' ∧
        keys c' = recent (maxEntries c) (log ++ insertions c [o]).
Proof.
  intros Hinv Hkeys. destruct o as [key | key value]; simpl.
  - exists c. by rewrite app_nil_r.
  - pose proof (inv_length c Hinv) as Hlen.
    pose proof (inv_capacity c Hinv) as Hcap.
    rewrite Hkeys, recent_length in Hlen.
    destruct (Cache_Set_cases c key value Hinv)
      as [[[old Hk] ->] | [(Hk & Hlt & ->) | (Hk & Hge & oldest & ks & Hks & ->)]];
      rewrite Cache_Get_lookup, Hk; simpl.
    + exists c. by rewrite app_nil_r.
    + eexists. split; [done |]. simpl.
      rewrite recent_snoc_room by lia. by rewrite Hkeys.
    + eexists. split; [done |]. simpl.
      rewrite recent_snoc_full by lia. rewrite <- Hkeys, Hks. reflexivity.
Qed.

Lemma insertions_cons c o os :
  insertions c (o :: os) =
    insertions c [o] ++ match run_op c o with
                        | Done c' => insertions c' os
                        | Panic _ => []
                        end.
Proof.
  simpl. destruct (run_op c o); simpl; by rewrite ?app_nil_r.
Qed.

Lemma run_ops_log os : ∀ c log,
  cache_inv c → keys c = recent (maxEntries c) log →
  ∃ c', run_ops c os = Done c' ∧
        keys c' = recent (maxEntries c) (log ++ insertions c os).
Proof.
  induction os as [|o os IH]; intros c log Hinv Hkeys.
  - exists c. simpl. by rewrite app_nil_r.
  - destruct (run_op_inv c o Hinv) as (c1 & Hrun & Hinv1 & Hmax1).
    destruct (run_op_log c o log Hinv Hkeys) as (c1' & Hrun' & Hkeys1).
    assert (c1' = c1) as -> by congruence.
    rewrite <- Hmax1 in Hkeys1.
    destruct (IH c1 _ Hinv1 Hkeys1) as (c2 & Hrun2 & Hkeys2).
    exists c2. split.
    + simpl. rewrite Hrun. simpl. exact Hrun2.
    + rewrite insertions_cons, Hrun, app_assoc, <- Hmax1. exact Hkeys2.
Qed.

(** Provenance of the stored values: a value in the cache was there at
    the start or was written by one of the [Set] calls. *)
Lemma run_ops_value os : ∀ c c' k v,
  cache_inv c → run_ops c os = Done c' →
  entries c' !! k = Some v →
  entries c !! k = Some v ∨ OpSet k v ∈ os.
Proof.
  induction os as [|o os IH]; intros c c' k v Hinv Hrun Hlook; simpl in Hrun.
  - left. congruence.
  - destruct (run_op_inv c o Hinv) as (c1 & Hrun1 & Hinv1 & _).
    rewrite Hrun1 in Hrun. simpl in Hrun.
    destruct (IH c1 c' k v Hinv1 Hrun Hlook) as [Hin1 | Hin]; [| right; by right].
    destruct o as [key | key value]; simpl in Hrun1.
    + left. congruence.
    + destruct (Cache_Set_cases c key value Hinv)
        as [[_ Heq] | [(Hk & Hlt & Heq) | (Hk & Hge & oldest & ks & Hks & Heq)]];
        rewrite Heq in Hrun1; injection Hrun1 as <-; simpl in Hin1.
      * by left.
      * destruct (decide (key = k)) as [->|Hne].
        -- rewrite lookup_insert_eq in Hin1. injection Hin1 as ->. right; left.
        -- rewrite lookup_insert_ne in Hin1 by done. by left.
      * destruct (decide (key = k)) as [->|Hne].
        -- rewrite lookup_insert_eq in Hin1. injection Hin1 as ->. right; left.
        -- rewrite lookup_insert_ne in Hin1 by done.
           apply lookup_delete_Some in Hin1 as [_ Hin1]. by left.
Qed.

(** On a run of [Set] calls with pairwise distinct keys that are not in
    the cache, every call inserts. *)
Lemma insertions_sets kvs : ∀ c,
  cache_inv c → NoDup kvs.*1 →
  (∀ k, k ∈ kvs.*1 → entries c !! k = None) →
  insertions c (sets kvs) = kvs.*1.
Proof.
  induction kvs as [|[key value] kvs IH]; intros c Hinv Hnd Hfresh; [done |].
  apply NoDup_cons in Hnd as [Hnotin Hnd].
  rewrite fmap_cons. unfold sets. rewrite map_cons. fold (sets kvs).
  rewrite insertions_cons. simpl.
  assert (entries c !! key = None) as Hk by (apply Hfresh; left).
  rewrite Cache_Get_lookup, Hk. simpl.
  destruct (cache_inv_Set c key value Hinv) as (c1 & Hset & Hinv1 & _).
  rewrite Hset. f_equal. apply IH; [done | done |].
  intros k Hin.
  destruct (entries c1 !! k) as [v|] eqn:Hlook; [| done].
  exfalso.
  destruct (run_ops_value [OpSet key value] c c1 k v Hinv) as [Hold | Hnew].
  - simpl. by rewrite Hset.
  - done.
  - rewrite Hfresh in Hold by (by right). done.
  - apply list_elem_of_singleton in Hnew. injection Hnew as -> ->. done.
Qed.
End cache_runs.

(** ** Strings as character lists *)

Section string_facts.
Implicit Types (s t : string) (l : list ascii).

Lemma chars_length s : length (chars s) = String.length s.
Proof. induction s as [|c s IH]; simpl; congruence. Qed.

Lemma chars_get s : ∀ i, String.get i s = chars s !! i.
Proof.
  induction s as [|c s IH]; intros [|i]; simpl; try reflexivity. apply IH.
Qed.

Lemma chars_app s t : chars (s +:+ t) = chars s ++ chars t.
Proof. induction s as [|c s IH]; simpl; [reflexivity | by rewrite IH]. Qed.

Lemma chars_of_list l : chars (string_of_list_ascii l) = l.
Proof. apply list_ascii_of_string_of_list_ascii. Qed.

Lemma of_list_chars s : string_of_list_ascii (chars s) = s.
Proof. apply string_of_list_ascii_of_string. Qed.

Lemma chars_inj s t : chars s = chars t → s = t.
Proof.
  intros H. rewrite <- (of_list_chars s), <- (of_list_chars t). by rewrite H.
Qed.

Lemma substring_chars s : ∀ n m,
  chars (String.substring n m s) = take m (drop n (chars s)).
Proof.
  induction s as [|c s IH]; intros n m.
  - destruct n, m; reflexivity.
  - destruct n as [|n]; simpl.
    + destruct m as [|m]; simpl; [reflexivity |]. f_equal. apply (IH 0%nat m).
    + apply IH.
Qed.

Lemma str_take_chars n s : chars (str_take n s) = take n (chars s).
Proof. unfold str_take. by rewrite substring_chars. Qed.

Lemma str_drop_chars n s : chars (str_drop n s) = drop n (chars s).
Proof.
  unfold str_drop. rewrite substring_chars, <- chars_length.
  apply take_ge. rewrite length_drop. lia.
Qed.

Lemma zeros_chars n : chars (zeros n) = replicate n "0"%char.
Proof. apply chars_of_list. Qed.

Lemma str_index_chars s i c :
  chars s !! i = Some c → str_index s i = Done (byte_of_ascii c).
Proof. intros H. unfold str_index. by rewrite chars_get, H. Qed.
End string_facts.

(** ** The codec *)

Section binToHex_loops.
Implicit Types (s : string) (l : list ascii) (bs : list Z).

Lemma lor_byte_range (x y : Z) :
  0 <= x < 2 ^ 8 → 0 <= y < 2 ^ 8 → 0 <= Z.lor x y < 2 ^ 8.
Proof.
  intros Hx Hy.
  assert (0 <= Z.lor x y) as Hnn by (apply Z.lor_nonneg; lia).
  split; [done |].
  destruct (Z.eq_dec (Z.lor x y) 0) as [Hz | Hnz]; [rewrite Hz; lia |].
  apply Z.log2_lt_pow2; [lia |].
  rewrite Z.log2_lor by lia.
  apply Z.max_lub_lt.
  - destruct (Z.eq_dec x 0) as [-> | ?]; [simpl; lia |].
    apply Z.log2_lt_pow2; lia.
  - destruct (Z.eq_dec y 0) as [-> | ?]; [simpl; lia |].
    apply Z.log2_lt_pow2; lia.
Qed.

Lemma shift_in_range acc c : 0 <= shift_in acc c < 256.
Proof.
  unfold shift_in, byte_wrap. change 256 with (2 ^ 8).
  apply lor_byte_range; apply Z.mod_pos_bound; lia.
Qed.

Lemma pack_group_range l : 0 <= pack_group l < 256.
Proof.
  unfold pack_group.
  destruct l as [|c l _] using rev_ind; [simpl; lia |].
  rewrite fold_left_app. simpl. apply shift_in_range.
Qed.

(** The inner loop folds [shift_in] over the characters of the group. *)
Lemma binToHex_byte_fold s i : ∀ fuel j acc,
  (8 - j <= fuel)%nat →
  binToHex_byte fuel s i j acc =
    Done (fold_left shift_in (take (8 - j) (drop (i + j) (chars s))) acc).
Proof.
  induction fuel as [|fuel IH]; intros j acc Hfuel.
  - replace (8 - j)%nat with 0%nat by lia. reflexivity.
  - simpl. rewrite <- chars_length.
    destruct (Nat.ltb_spec j 8) as [Hj|Hj]; simpl.
    + destruct (Nat.ltb_spec (i + j) (length (chars s))) as [Hij|Hij].
      * destruct (lookup_lt_is_Some_2 (chars s) (i + j) Hij) as [c Hc].
        rewrite (str_index_chars _ _ _ Hc). simpl.
        rewrite IH by lia.
        rewrite (drop_S _ _ _ Hc).
        replace (8 - j)%nat with (S (8 - S j)) by lia.
        simpl. rewrite Nat.add_succ_r. reflexivity.
      * by rewrite drop_ge, take_nil by lia.
    + by replace (8 - j)%nat with 0%nat by lia.
Qed.

Lemma binToHex_byte_group s i :
  binToHex_byte 8 s i 0 0 = Done (pack_group (take 8 (drop i (chars s)))).
Proof.
  rewrite binToHex_byte_fold by lia. unfold pack_group.
  by rewrite Nat.add_0_r.
Qed.

(** More fuel than the 8 possible iterations changes nothing. *)
Lemma binToHex_byte_fuel s i fuel :
  (8 <= fuel)%nat → binToHex_byte fuel s i 0 0 = binToHex_byte 8 s i 0 0.
Proof. intros H. by rewrite !binToHex_byte_fold by lia. Qed.

Lemma binToHex_loop_S fuel s i bs :
  binToHex_loop (S fuel) s i bs =
    if (i <? String.length s)%nat then
      binByte ← binToHex_byte 8 s i 0 0;
      binBytes' ← store bs (i / 8) binByte;
      binToHex_loop fuel s (i + 8) binBytes'
    else Done bs.
Proof. reflexivity. Qed.

(** The outer loop stores the byte of each group at its place. *)
Lemma binToHex_loop_pack s : ∀ fuel k bs,
  length bs = ((String.length s + 7) / 8)%nat →
  ((String.length s + 7) / 8 - k <= fuel)%nat →
  binToHex_loop fuel s (8 * k) bs =
    Done (take k bs ++
          map (pack_at (chars s)) (seq k ((String.length s + 7) / 8 - k))).
Proof.
  induction fuel as [|fuel IH]; intros k bs Hlen Hfuel.
  - replace ((String.length s + 7) / 8 - k)%nat with 0%nat by lia.
    simpl. rewrite take_ge by lia. by rewrite app_nil_r.
  - rewrite binToHex_loop_S.
    destruct (Nat.ltb_spec (8 * k) (String.length s)) as [Hk|Hk].
    + rewrite binToHex_byte_group, bind_Done.
      assert (k < (String.length s + 7) / 8)%nat as Hkn
        by (apply Nat.div_le_lower_bound; lia).
      unfold store.
      replace (8 * k / 8)%nat with k
        by (symmetry; rewrite Nat.mul_comm; apply Nat.div_mul; lia).
      destruct (decide (k < length bs)%nat) as [_|]; [| lia].
      rewrite bind_Done.
      replace (8 * k + 8)%nat with (8 * S k)%nat by lia.
      rewrite IH by (rewrite ?length_insert; lia).
      f_equal.
      replace ((String.length s + 7) / 8 - k)%nat
        with (S ((String.length s + 7) / 8 - S k)) by lia.
      simpl seq. simpl map.
      rewrite (take_S_r _ _ (pack_group (take 8 (drop (8 * k) (chars s)))))
        by (apply list_lookup_insert_eq; lia).
      rewrite take_insert_ge by lia.
      by rewrite <- app_assoc.
    + assert ((String.length s + 7) / 8 <= k)%nat as Hkn.
      { apply Nat.lt_succ_r, Nat.Div0.div_lt_upper_bound. lia. }
      replace ((String.length s + 7) / 8 - k)%nat with 0%nat by lia.
      simpl. rewrite take_ge by lia. by rewrite app_nil_r.
Qed.

(** The fuel [len(binStr)] of [binToHex] is enough: any larger fuel gives
    the same bytes. *)
Lemma binToHex_loop_fuel s fuel bs :
  length bs = ((String.length s + 7) / 8)%nat →
  (String.length s <= fuel)%nat →
  binToHex_loop fuel s 0 bs = binToHex_loop (String.length s) s 0 bs.
Proof.
  intros Hlen Hfuel.
  assert ((String.length s + 7) / 8 <= String.length s)%nat as Hle.
  { destruct (String.length s) as [|n]; [reflexivity |].
    apply Nat.lt_succ_r, Nat.Div0.div_lt_upper_bound. lia. }
  change 0%nat with (8 * 0)%nat.
  rewrite !binToHex_loop_pack by lia. reflexivity.
Qed.

(** [binToHex] never panics and never returns an error: it packs the
    groups of 8 characters and prints the bytes in upper-case hex. *)
Lemma binToHex_pack s :
  binToHex s =
    Done (strings_ToUpper (hex_EncodeToString (pack (chars s))), None).
Proof.
  unfold binToHex.
  assert ((String.length s + 7) / 8 <= String.length s)%nat as Hle.
  { destruct (String.length s) as [|n]; [reflexivity |].
    apply Nat.lt_succ_r, Nat.Div0.div_lt_upper_bound. lia. }
  change 0%nat with (8 * 0)%nat at 1.
  rewrite binToHex_loop_pack by (rewrite ?length_replicate; lia).
  simpl. unfold pack. rewrite chars_length, Nat.sub_0_r. reflexivity.
Qed.
End binToHex_loops.

Section groups.
Implicit Types (l g : list ascii) (bs : list Z).

Lemma pack_nil : pack [] = [].
Proof. reflexivity. Qed.

Lemma pack_short l :
  (0 < length l <= 8)%nat → pack l = [pack_group l].
Proof.
  intros Hl. unfold pack.
  replace ((length l + 7) / 8)%nat with 1%nat.
  - cbn [seq map]. unfold pack_at.
    by rewrite Nat.mul_0_r, drop_0, take_ge by lia.
  - apply Nat.div_unique with (r := (length l - 1)%nat); lia.
Qed.

Lemma pack_app8 g l :
  length g = 8%nat → pack (g ++ l) = pack_group g :: pack l.
Proof.
  intros Hg. unfold pack. rewrite length_app, Hg.
  replace ((8 + length l + 7) / 8)%nat with (S ((length l + 7) / 8)).
  - rewrite <- cons_seq, <- fmap_S_seq. cbn [map]. f_equal.
    + unfold pack_at. by rewrite Nat.mul_0_r, drop_0, take_app_length' by done.
    + change (@map nat Z) with (@fmap list _ nat Z).
      rewrite <- list_fmap_compose. apply list_fmap_ext.
      intros _ q _. unfold pack_at, compose.
      replace (8 * S q)%nat with (length g + 8 * q)%nat by lia.
      by rewrite drop_app_add.
  - replace (8 + length l + 7)%nat with (1 * 8 + (length l + 7))%nat by lia.
    rewrite Nat.div_add_l by lia. reflexivity.
Qed.

Lemma bits_of_bytes_cons v bs :
  bits_of_bytes (v :: bs) = chars (fmt_Sprintf_08b v) ++ bits_of_bytes bs.
Proof. reflexivity. Qed.

(** Checking a property of bytes on all 256 of them. *)
Lemma byte_forall (P : Z → bool) :
  forallb P (seqZ 0 256) = true → ∀ v, 0 <= v < 256 → P v = true.
Proof.
  intros Hall v Hv. rewrite forallb_forall in Hall.
  apply Hall, list_elem_of_In, elem_of_seqZ. lia.
Qed.

Lemma is_bit_cases (c : ascii) : is_bit c = true → c = "0"%char ∨ c = "1"%char.
Proof.
  unfold is_bit. intros [H|H]%orb_true_iff; apply Ascii.eqb_eq in H; auto.
Qed.

(** A group of at most 8 bits is rendered right-aligned: the zeros that
    fill the byte come before the bits. *)
Lemma fmt_pack_group g :
  forallb is_bit g = true → (length g <= 8)%nat →
  chars (fmt_Sprintf_08b (pack_group g)) = replicate (8 - length g) "0"%char ++ g.
Proof.
  intros Hbits Hlen.
  do 9 (destruct g as [|? g];
        [ vm_compute; reflexivity
        | simpl in Hbits; apply andb_true_iff in Hbits as [Hb Hbits];
          apply is_bit_cases in Hb as [-> | ->] ]);
    simpl in Hlen; lia.
Qed.

(** The 8 digits of a byte pack to the byte. *)
Lemma pack_group_fmt v :
  0 <= v < 256 →
  length (chars (fmt_Sprintf_08b v)) = 8%nat ∧
  pack_group (chars (fmt_Sprintf_08b v)) = v.
Proof.
  intros Hv.
  pose proof (byte_forall
    (fun v => Nat.eqb (length (chars (fmt_Sprintf_08b v))) 8
              && Z.eqb (pack_group (chars (fmt_Sprintf_08b v))) v)
    ltac:(vm_compute; reflexivity) v Hv) as H.
  apply andb_true_iff in H as [H1 H2].
  split; [by apply Nat.eqb_eq | by apply Z.eqb_eq].
Qed.

Lemma pack_range l : Forall (fun v => 0 <= v < 256) (pack l).
Proof.
  unfold pack. apply Forall_forall. intros v Hin.
  apply list_elem_of_In, in_map_iff in Hin as (q & <- & _).
  apply pack_group_range.
Qed.

(** Packing the digits of a byte sequence gives the bytes back. *)
Lemma pack_bits_of_bytes bs :
  Forall (fun v => 0 <= v < 256) bs → pack (bits_of_bytes bs) = bs.
Proof.
  induction 1 as [|v bs Hv _ IH]; [reflexivity |].
  destruct (pack_group_fmt v Hv) as [Hlen Hpack].
  rewrite bits_of_bytes_cons, pack_app8 by done. by rewrite Hpack, IH.
Qed.

(** The digits of the packed bytes of a bit string: the full groups as
    they are, and a last partial group after the zeros that fill it. *)
Lemma bits_of_bytes_pack : ∀ (n : nat) l,
  (length l < 8 * S n)%nat → forallb is_bit l = true →
  bits_of_bytes (pack l) =
    take (8 * (length l / 8)) l ++
    (if decide (length l `mod` 8 = 0)%nat then []
     else replicate (8 - length l `mod` 8) "0"%char ++ drop (8 * (length l / 8)) l).
Proof.
  induction n as [|n IH]; intros l Hlen Hbits.
  - rewrite Nat.div_small, Nat.mod_small by lia. simpl.
    destruct l as [|c l]; [reflexivity |].
    destruct (decide _) as [Hz|_]; [simpl in Hz; lia |].
    rewrite pack_short by (simpl in *; lia).
    unfold bits_of_bytes. simpl. rewrite app_nil_r.
    apply fmt_pack_group; [done | lia].
  - destruct (decide (length l < 8)%nat) as [Hshort|Hlong].
    { apply (IH l); [lia | done]. }
    rewrite <- (take_drop 8 l) at 1.
    assert (length (take 8 l) = 8%nat) as Hg by (rewrite length_take; lia).
    rewrite pack_app8, bits_of_bytes_cons by done.
    rewrite <- (take_drop 8 l), forallb_app in Hbits.
    apply andb_true_iff in Hbits as [Hb1 Hb2].
    rewrite IH by (rewrite ?length_drop; lia || done).
    rewrite fmt_pack_group by (done || lia).
    rewrite Hg, Nat.sub_diag.
    change (replicate 0 "0"%char ++ take 8 l) with (take 8 l).
    rewrite length_drop.
    assert (length l = 8 + (length l - 8))%nat as Hl by lia.
    assert (length l / 8 = S ((length l - 8) / 8))%nat as Hdiv.
    { rewrite Hl at 1.
      replace (8 + (length l - 8))%nat with (1 * 8 + (length l - 8))%nat by lia.
      rewrite Nat.div_add_l by lia. reflexivity. }
    assert (length l `mod` 8 = (length l - 8) `mod` 8)%nat as Hmod.
    { rewrite Hl at 1.
      replace (8 + (length l - 8))%nat with ((length l - 8) + 1 * 8)%nat by lia.
      apply Nat.Div0.mod_add. }
    rewrite Hdiv, Hmod, drop_drop, app_assoc. f_equal.
    + replace (8 * S ((length l - 8) / 8))%nat
        with (8 + 8 * ((length l - 8) / 8))%nat by lia.
      rewrite <- take_take_drop. reflexivity.
    + destruct (decide _); [reflexivity |]. do 2 f_equal. lia.
Qed.
End groups.

Section hex_facts.
Implicit Types (s h : string) (bs : list Z).

Lemma range_forall (n : Z) (P : Z → bool) :
  forallb P (seqZ 0 n) = true → ∀ v, 0 <= v < n → P v = true.
Proof.
  intros Hall v Hv. rewrite forallb_forall in Hall.
  apply Hall, list_elem_of_In, elem_of_seqZ. lia.
Qed.

(** Decoding the two upper-case digits of a byte gives the byte. *)
Lemma hex_digits_of_byte v :
  0 <= v < 256 →
  ∃ a b, fromHexChar (upper_ascii (hexdigit (Z.shiftr v 4))) = Some a ∧
         fromHexChar (upper_ascii (hexdigit (Z.land v 15))) = Some b ∧
         Z.lor (Z.shiftl a 4) b = v.
Proof.
  intros Hv.
  pose proof (byte_forall
    (fun v =>
       match fromHexChar (upper_ascii (hexdigit (Z.shiftr v 4))),
             fromHexChar (upper_ascii (hexdigit (Z.land v 15))) with
       | Some a, Some b => Z.eqb (Z.lor (Z.shiftl a 4) b) v
       | _, _ => false
       end)
    ltac:(vm_compute; reflexivity) v Hv) as H.
  cbv beta in H.
  destruct (fromHexChar (upper_ascii (hexdigit (Z.shiftr v 4)))) as [a|]; [| done].
  destruct (fromHexChar (upper_ascii (hexdigit (Z.land v 15)))) as [b|]; [| done].
  exists a, b. split_and!; [done | done | by apply Z.eqb_eq].
Qed.

Lemma hex_DecodeString_pair p q rest :
  hex_DecodeString (String p (String q rest)) =
    match fromHexChar p with
    | None => ([], Some (InvalidByteError p))
    | Some a =>
        match fromHexChar q with
        | None => ([], Some (InvalidByteError q))
        | Some b =>
            let '(bytes, err) := hex_DecodeString rest in
            (Z.lor (Z.shiftl a 4) b :: bytes, err)
        end
    end.
Proof. reflexivity. Qed.

(** [hex.DecodeString] inverts the upper-cased [hex.EncodeToString]. *)
Lemma hex_decode_encode bs :
  Forall (fun v => 0 <= v < 256) bs →
  hex_DecodeString (strings_ToUpper (hex_EncodeToString bs)) = (bs, None).
Proof.
  induction 1 as [|v bs Hv _ IH]; [reflexivity |].
  destruct (hex_digits_of_byte v Hv) as (a & b & Ha & Hb & Hab).
  cbn [hex_EncodeToString strings_ToUpper].
  rewrite hex_DecodeString_pair, Ha, Hb, IH, Hab. reflexivity.
Qed.

Lemma fold_append_chars (f : Z → string) bs : ∀ acc,
  chars (fold_left (fun binStr b => binStr +:+ f b) bs acc) =
    chars acc ++ concat (map (fun b => chars (f b)) bs).
Proof.
  induction bs as [|b bs IH]; intros acc; simpl.
  - by rewrite app_nil_r.
  - by rewrite IH, chars_app, <- app_assoc.
Qed.

Lemma hexToBin_bits h bs :
  hex_DecodeString h = (bs, None) →
  hexToBin h = (string_of_list_ascii (bits_of_bytes bs), None).
Proof.
  intros Hdec. unfold hexToBin. rewrite Hdec. f_equal.
  apply chars_inj. by rewrite fold_append_chars, chars_of_list.
Qed.

Lemma hexToBin_error h bs e :
  hex_DecodeString h = (bs, Some e) → hexToBin h = (EmptyString, Some e).
Proof. intros Hdec. unfold hexToBin. by rewrite Hdec. Qed.

(** A hex digit of either case has a value below 16 whose lower-case
    digit differs from it by case only. *)
Lemma fromHexChar_hexdigit (c : ascii) :
  is_hexdigit c = true →
  ∃ a, fromHexChar c = Some a ∧ 0 <= a < 16 ∧
       upper_ascii (hexdigit a) = upper_ascii c.
Proof.
  unfold is_hexdigit. cbn [chars list_ascii_of_string existsb].
  intros H.
  repeat (apply orb_true_iff in H as [H|H];
          [ apply Ascii.eqb_eq in H; subst c; eexists;
            split_and!; [vm_compute; reflexivity | lia | lia | reflexivity] | ]).
  discriminate.
Qed.

(** The two nibbles of a byte built from them. *)
Lemma nibbles_of_pair a b :
  0 <= a < 16 → 0 <= b < 16 →
  0 <= Z.lor (Z.shiftl a 4) b < 256 ∧
  Z.shiftr (Z.lor (Z.shiftl a 4) b) 4 = a ∧
  Z.land (Z.lor (Z.shiftl a 4) b) 15 = b.
Proof.
  intros Ha Hb.
  pose proof (range_forall 16
    (fun a => forallb (fun b =>
       let v := Z.lor (Z.shiftl a 4) b in
       (0 <=? v) && (v <? 256) && (Z.shiftr v 4 =? a) && (Z.land v 15 =? b))
       (seqZ 0 16))
    ltac:(vm_compute; reflexivity) a Ha) as H.
  cbv beta in H.
  pose proof (range_forall 16 _ H b Hb) as H'. cbv beta zeta in H'.
  repeat (apply andb_true_iff in H' as [H' ?]). lia.
Qed.

Lemma is_hexstring_pair p q rest :
  is_hexstring (String p (String q rest)) =
    is_hexdigit p && is_hexdigit q && is_hexstring rest.
Proof.
  unfold is_hexstring. cbn [String.length chars list_ascii_of_string forallb].
  change (Nat.even (S (S (String.length rest)))) with (Nat.even (String.length rest)).
  fold (chars rest).
  destruct (is_hexdigit p), (is_hexdigit q), (Nat.even (String.length rest));
    reflexivity.
Qed.

(** Two-character induction on strings. *)
Lemma string_pair_ind (P : string → Prop) :
  P EmptyString →
  (∀ c, P (String c EmptyString)) →
  (∀ p q rest, P rest → P (String p (String q rest))) →
  ∀ s, P s.
Proof.
  intros H0 H1 H2 s.
  enough (P s ∧ ∀ c, P (String c s)) as [? _] by done.
  induction s as [|c s [IH1 IH2]]; split; auto.
Qed.

(** A valid hex string decodes without error to bytes whose upper-case
    encoding is the string upper-cased. *)
Lemma hex_decode_valid h :
  is_hexstring h = true →
  ∃ bs, hex_DecodeString h = (bs, None) ∧
        Forall (fun v => 0 <= v < 256) bs ∧
        strings_ToUpper (hex_EncodeToString bs) = strings_ToUpper h.
Proof.
  induction h as [|c|p q rest IH] using string_pair_ind; intros Hvalid.
  - exists []. split_and!; [reflexivity | constructor | reflexivity].
  - unfold is_hexstring in Hvalid. simpl in Hvalid. discriminate.
  - rewrite is_hexstring_pair in Hvalid.
    apply andb_true_iff in Hvalid as [[Hp Hq]%andb_true_iff Hrest].
    destruct (IH Hrest) as (bs & Hdec & Hrange & Hup).
    destruct (fromHexChar_hexdigit p Hp) as (a & Ha & Har & Hau).
    destruct (fromHexChar_hexdigit q Hq) as (b & Hb & Hbr & Hbu).
    destruct (nibbles_of_pair a b Har Hbr) as (Hv & Hhi & Hlo).
    exists (Z.lor (Z.shiftl a 4) b :: bs). split_and!.
    + by rewrite hex_DecodeString_pair, Ha, Hb, Hdec.
    + by constructor.
    + cbn [hex_EncodeToString strings_ToUpper].
      by rewrite Hhi, Hlo, Hau, Hbu, Hup.
Qed.
End hex_facts.

(** ** Claims on the codec *)

Ltac div8 n :=
  pose proof (Nat.div_mod_eq n 8);
  pose proof (Nat.mod_upper_bound n 8 ltac:(lia)).

Lemma decode_encode_bits (b : string) :
  decode_encode b =
    Done (string_of_list_ascii (bits_of_bytes (pack (chars b))), None).
Proof.
  unfold decode_encode. rewrite binToHex_pack, bind_Done. cbv beta iota.
  f_equal. apply hexToBin_bits, hex_decode_encode, pack_range.
Qed.

Lemma encode_decode_valid (h : string) (bs : list Z) :
  hex_DecodeString h = (bs, None) → Forall (fun v => 0 <= v < 256) bs →
  encode_decode h = Done (strings_ToUpper (hex_EncodeToString bs), None).
Proof.
  intros Hdec Hrange. unfold encode_decode.
  rewrite (hexToBin_bits h bs Hdec). cbn [fst].
  rewrite binToHex_pack, chars_of_list, pack_bits_of_bytes by done.
  reflexivity.
Qed.

(** C8: for a bit string whose length is a multiple of 8, decoding the
    encoding gives the bit string back: [binToHex] returns a hex string
    without error and [hexToBin] of it returns exactly [b]. *)
Theorem decode_encode_roundtrip (b : string) :
  is_bitstring b = true →
  (String.length b `mod` 8 = 0)%nat →
  decode_encode b = Done (b, None).
Proof.
  intros Hbits Hmod. rewrite decode_encode_bits. do 2 f_equal.
  apply chars_inj. rewrite chars_of_list.
  rewrite (bits_of_bytes_pack (length (chars b))) by (done || lia).
  rewrite chars_length.
  destruct (decide _) as [_|]; [| done].
  rewrite app_nil_r. apply take_ge. rewrite chars_length.
  div8 (String.length b). lia.
Qed.

Lemma decode_encode_roundtrip_witness :
  decode_encode "0100000111111111" = Done ("0100000111111111", None).
Proof.
  apply (decode_encode_roundtrip "0100000111111111"); reflexivity.
Defined.

(** C1, as the code has it: for a bit string whose length is not a multiple
    of 8, decoding the encoding has length [8 * ceil(len / 8)] and differs
    from [b] only in zero bits put in front of the last, partial group: the
    full groups of [b] come first as they are, then [8 - len mod 8] zeros,
    then the last [len mod 8] bits of [b]. *)
Theorem decode_encode_padding (b : string) :
  is_bitstring b = true →
  (String.length b `mod` 8 ≠ 0)%nat →
  ∃ out : string,
    decode_encode b = Done (out, None) ∧
    String.length out = (8 * ((String.length b + 7) / 8))%nat ∧
    out = str_take (8 * (String.length b / 8)) b
          +:+ zeros (8 - String.length b `mod` 8)
          +:+ str_drop (8 * (String.length b / 8)) b.
Proof.
  intros Hbits Hmod. eexists. split; [apply decode_encode_bits |].
  assert (string_of_list_ascii (bits_of_bytes (pack (chars b))) =
          str_take (8 * (String.length b / 8)) b
          +:+ zeros (8 - String.length b `mod` 8)
          +:+ str_drop (8 * (String.length b / 8)) b) as Hout.
  { apply chars_inj. rewrite chars_of_list.
    rewrite (bits_of_bytes_pack (length (chars b))) by (done || lia).
    rewrite chars_length.
    destruct (decide _) as [|_]; [done |].
    by rewrite !chars_app, str_take_chars, zeros_chars, str_drop_chars. }
  split; [| exact Hout].
  rewrite Hout, <- !chars_length, !chars_app, !length_app.
  rewrite str_take_chars, zeros_chars, str_drop_chars.
  rewrite length_take, length_replicate, length_drop, chars_length.
  div8 (String.length b). div8 (String.length b + 7)%nat. lia.
Qed.

Lemma decode_encode_padding_witness :
  ∃ out : string,
    decode_encode "010000011" = Done (out, None) ∧
    String.length out = 16%nat ∧
    out = "0100000100000001".
Proof.
  apply (decode_encode_padding "010000011"); [reflexivity | vm_compute; lia].
Defined.

(** C1, as the specification words it, fails: the single bit ["1"] comes
    back as ["00000001"], not as ["10000000"]. *)
Lemma trailing_padding_counterexample :
  is_bitstring "1" = true ∧ (String.length "1" `mod` 8 ≠ 0)%nat ∧
  decode_encode "1" = Done ("00000001", None) ∧
  ¬ trailing_padding_roundtrip "1".
Proof.
  split_and!; [reflexivity | vm_compute; lia | reflexivity |].
  unfold trailing_padding_roundtrip. vm_compute. discriminate.
Qed.

(** C9: for a valid hex string (even length, hex digits of either case),
    encoding the decoding gives the string in upper case. *)
Theorem encode_decode_roundtrip (h : string) :
  is_hexstring h = true →
  encode_decode h = Done (strings_ToUpper h, None).
Proof.
  intros Hvalid.
  destruct (hex_decode_valid h Hvalid) as (bs & Hdec & Hrange & Hup).
  rewrite (encode_decode_valid h bs Hdec Hrange). by rewrite Hup.
Qed.

Lemma encode_decode_roundtrip_witness :
  encode_decode "dead09BEef" = Done ("DEAD09BEEF", None).
Proof.
  apply (encode_decode_roundtrip "dead09BEef"). reflexivity.
Defined.

Lemma hex_upper_length (bs : list Z) :
  String.length (strings_ToUpper (hex_EncodeToString bs)) = (2 * length bs)%nat.
Proof. induction bs as [|v bs IH]; simpl; [reflexivity | rewrite IH; lia]. Qed.

Lemma pack_length (l : list ascii) : length (pack l) = ((length l + 7) / 8)%nat.
Proof. unfold pack. by rewrite length_map, length_seq. Qed.

Lemma upper_hex_of_byte (v : Z) :
  0 <= v < 256 →
  is_upper_hexdigit (upper_ascii (hexdigit (Z.shiftr v 4))) = true ∧
  is_upper_hexdigit (upper_ascii (hexdigit (Z.land v 15))) = true.
Proof.
  intros Hv.
  pose proof (byte_forall
    (fun v => is_upper_hexdigit (upper_ascii (hexdigit (Z.shiftr v 4)))
              && is_upper_hexdigit (upper_ascii (hexdigit (Z.land v 15))))
    ltac:(vm_compute; reflexivity) v Hv) as H.
  by apply andb_true_iff in H.
Qed.

Lemma hex_upper_charset (bs : list Z) :
  Forall (fun v => 0 <= v < 256) bs →
  forallb is_upper_hexdigit (chars (strings_ToUpper (hex_EncodeToString bs))) = true.
Proof.
  induction 1 as [|v bs Hv _ IH]; [reflexivity |].
  destruct (upper_hex_of_byte v Hv) as [Hhi Hlo].
  cbn [hex_EncodeToString strings_ToUpper chars list_ascii_of_string forallb].
  fold (chars (strings_ToUpper (hex_EncodeToString bs))).
  by rewrite Hhi, Hlo, IH.
Qed.

(** The contribution of a character to its group, in plain arithmetic:
    the group value is doubled, wrapped modulo 256, and OR-ed with the byte
    of the character minus 48 (the byte of ['0']), wrapped modulo 256. *)
Lemma pack_group_snoc (g : list ascii) (c : ascii) :
  pack_group (g ++ [c]) =
    Z.lor ((2 * pack_group g) mod 256) ((byte_of_ascii c - 48) mod 256).
Proof.
  unfold pack_group. rewrite fold_left_app. cbn [fold_left].
  unfold shift_in, byte_wrap. rewrite Z.shiftl_mul_pow2 by lia.
  do 2 f_equal. change (2 ^ 1) with 2. lia.
Qed.

(** C3, as the code has it: [binToHex] validates nothing.  For every input
    string, also one with characters outside ['0'], ['1'], it returns a nil
    error with an upper-case hex string of [2 * ceil(len / 8)] characters:
    the upper-case hex digits of one byte for each group of 8 characters,
    where a character [c] contributes the byte [c - '0'], wrapped modulo
    256, OR-ed into the shifted (doubled and wrapped) group value.  So
    ["0102"] encodes to ["06"], ["/"] to ["FF"] and ["/0"] to ["FE"]. *)
Theorem binToHex_never_fails (s : string) :
  ∃ hexStr : string,
    binToHex s = Done (hexStr, None) ∧
    String.length hexStr = (2 * ((String.length s + 7) / 8))%nat ∧
    forallb is_upper_hexdigit (chars hexStr) = true ∧
    hexStr = strings_ToUpper (hex_EncodeToString
               (map (fun q => pack_group (take 8 (drop (8 * q) (chars s))))
                    (seq 0 ((String.length s + 7) / 8)))) ∧
    pack_group [] = 0 ∧
    (∀ (g : list ascii) (c : ascii),
       pack_group (g ++ [c]) =
         Z.lor ((2 * pack_group g) mod 256) ((byte_of_ascii c - 48) mod 256)) ∧
    binToHex "0102" = Done ("06", None) ∧
    binToHex "/" = Done ("FF", None) ∧
    binToHex "/0" = Done ("FE", None).
Proof.
  eexists. split; [apply binToHex_pack |].
  split_and!.
  - by rewrite hex_upper_length, pack_length, chars_length.
  - apply hex_upper_charset, pack_range.
  - unfold pack. by rewrite chars_length.
  - reflexivity.
  - apply pack_group_snoc.
  - reflexivity.
  - reflexivity.
  - reflexivity.
Qed.

(** C3, as the specification words it, fails: ["0102"] has the character
    ['2'] and is encoded to ["06"] with a nil error. *)
Lemma encode_rejects_counterexample :
  contains "0102" "2" = true ∧ is_bitstring "0102" = false ∧
  binToHex "0102" = Done ("06", None) ∧ ¬ encode_rejects "0102".
Proof.
  split_and!; try reflexivity.
  intros (h & e & H). vm_compute in H. discriminate.
Qed.

(** ** Claims on the cache *)

(** C7: [Set] with a key that is already stored is a no-op: the cache that
    results is the cache as it was, so the stored value, the entries and
    the insertion-order key sequence are unchanged and nothing is evicted. *)
Theorem Cache_Set_existing_noop (c : Cache) (key value : string) :
  snd (Cache_Get c key) = true → Cache_Set c key value = Done c.
Proof.
  intros Hfound. unfold Cache_Get in Hfound.
  destruct (entries c !! key) as [old|] eqn:Hk; [| discriminate].
  by eapply Cache_Set_present.
Qed.

Lemma Cache_Set_existing_noop_witness :
  let c := {| maxEntries := 2; entries := {[ "a" := "x" ]}; keys := ["a"] |} in
  Cache_Set c "a" "y" = Done c.
Proof.
  intros c. apply (Cache_Set_existing_noop c "a" "y"). vm_compute. reflexivity.
Defined.

(** C4, on the code: the first [Set] on the cache made by [NewCache(0)]
    reads [keys[0]] of an empty slice and panics with an index out of
    range, for every key and value. *)
Theorem Cache_Set_capacity_zero_panics (key value : string) :
  (c ← NewCache 0; Cache_Set c key value) = Panic (IndexOutOfRange 0 0).
Proof.
  change (NewCache 0) with (Done (empty_cache 0)). rewrite bind_Done.
  unfold Cache_Set, empty_cache. cbn [entries maxEntries keys].
  rewrite lookup_empty, map_size_empty. reflexivity.
Qed.

Lemma NoDup_fst_agree (kvs : list (string * string)) (k v v' : string) :
  NoDup kvs.*1 → (k, v) ∈ kvs → (k, v') ∈ kvs → v = v'.
Proof.
  induction kvs as [|[k0 v0] kvs IH]; intros Hnd Hin Hin'.
  - by apply elem_of_nil in Hin.
  - rewrite fmap_cons in Hnd. apply NoDup_cons in Hnd as [Hnotin Hnd].
    apply elem_of_cons in Hin as [Heq | Hin];
      apply elem_of_cons in Hin' as [Heq' | Hin'].
    + congruence.
    + injection Heq as -> ->. exfalso. apply Hnotin.
      apply list_elem_of_fmap. by exists (k0, v').
    + injection Heq' as -> ->. exfalso. apply Hnotin.
      apply list_elem_of_fmap. by exists (k0, v).
    + by apply IH.
Qed.

Lemma sets_elem (kvs : list (string * string)) (k v : string) :
  OpSet k v ∈ sets kvs → (k, v) ∈ kvs.
Proof.
  unfold sets. intros Hin.
  apply list_elem_of_In, in_map_iff in Hin as ([k' v'] & Heq & Hin).
  simpl in Heq. injection Heq as -> ->. by apply list_elem_of_In.
Qed.

(** C6: for a capacity of at least 1, the empty cache [c0] that [NewCache]
    returned for it, and every sequence of [Get] and [Set] calls from it,
    the run completes and the invariant holds: at most [capacity] entries,
    and [keys] holds exactly the keys of the mapping, without repetition,
    in insertion order with the oldest first (it is the tail of the
    insertion log that fits the capacity).  And inserting [capacity + 1]
    distinct keys evicts exactly the first one: [Get] does not find it, and
    finds every other key with its value. *)
Theorem cache_fifo_invariant (capacity : Z) (c0 : Cache) (os : list op)
    (kvs : list (string * string)) :
  1 <= capacity →
  NewCache capacity = Done c0 →
  NoDup kvs.*1 →
  length kvs = S (Z.to_nat capacity) →
  (∃ c, run_new capacity os = Done c ∧
        run_ops c0 os = Done c ∧
        Z.of_nat (size (entries c)) <= capacity ∧
        NoDup (keys c) ∧
        (∀ k, k ∈ keys c ↔ snd (Cache_Get c k) = true) ∧
        keys c = recent capacity (insertions c0 os))
  ∧ (∃ c, run_new capacity (sets kvs) = Done c ∧
          run_ops c0 (sets kvs) = Done c ∧
          ∀ (i : nat) (k v : string), kvs !! i = Some (k, v) →
            Cache_Get c k = if decide (i = 0%nat) then (EmptyString, false)
                            else (v, true)).
Proof.
  intros Hcap Hnew Hnd Hlen. unfold run_new.
  rewrite Hnew, !bind_Done. apply NewCache_returned in Hnew as ->.
  pose proof (cache_inv_empty capacity Hcap) as Hinv0.
  assert (keys (empty_cache capacity) = recent (maxEntries (empty_cache capacity)) [])
    as Hlog0 by reflexivity.
  split.
  - destruct (run_ops_inv os _ Hinv0) as (c & Hrun & Hinv & Hmax).
    destruct (run_ops_log os _ [] Hinv0 Hlog0) as (c' & Hrun' & Hkeys).
    assert (c' = c) as -> by congruence.
    exists c. simpl in Hmax, Hkeys. split_and!; [done | done | | | | done].
    + rewrite <- Hmax. apply Hinv.
    + apply Hinv.
    + intros k. rewrite (inv_dom c Hinv k), Cache_Get_lookup.
      destruct (entries c !! k); simpl; split; (done || by intros []) || eauto.
  - destruct (run_ops_inv (sets kvs) _ Hinv0) as (c & Hrun & Hinv & Hmax).
    destruct (run_ops_log (sets kvs) _ [] Hinv0 Hlog0) as (c' & Hrun' & Hkeys).
    assert (c' = c) as -> by congruence.
    exists c. split; [done |]. split; [done |].
    rewrite insertions_sets in Hkeys by (done || (intros; apply lookup_empty)).
    simpl in Hkeys. unfold recent in Hkeys.
    rewrite length_fmap, Hlen in Hkeys.
    replace (S (Z.to_nat capacity) - Z.to_nat capacity)%nat with 1%nat in Hkeys by lia.
    destruct kvs as [|[k0 v0] rest]; [discriminate |].
    rewrite fmap_cons in Hnd, Hkeys. simpl in Hkeys.
    apply NoDup_cons in Hnd as [Hnotin Hnd]. rewrite drop_0 in Hkeys.
    intros i k v Hi. rewrite Cache_Get_lookup.
    destruct i as [|i]; simpl in Hi.
    + injection Hi as <- <-. simpl.
      destruct (entries c !! k0) as [v'|] eqn:Hk; [| done].
      exfalso. apply Hnotin. rewrite <- Hkeys. apply (inv_dom c Hinv). eauto.
    + simpl.
      assert ((k, v) ∈ rest) as Hin by (eapply list_elem_of_lookup_2; eauto).
      assert (k ∈ keys c) as Hkin.
      { rewrite Hkeys. apply list_elem_of_fmap. by exists (k, v). }
      apply (inv_dom c Hinv) in Hkin as [v' Hv'].
      rewrite Hv'.
      destruct (run_ops_value _ _ _ k v' Hinv0 Hrun Hv') as [Hold | Hset].
      * simpl in Hold. by rewrite lookup_empty in Hold.
      * apply sets_elem in Hset.
        apply elem_of_cons in Hset as [Heq | Hset].
        -- injection Heq as -> ->. exfalso. apply Hnotin.
           apply list_elem_of_fmap. by exists (k0, v).
        -- by rewrite (NoDup_fst_agree rest k v v' Hnd Hin Hset).
Qed.

Lemma cache_fifo_invariant_witness :
  (∃ c, run_new 2 [OpSet "a" "1"; OpGet "a"; OpSet "a" "2"; OpSet "b" "3";
                   OpGet "zz"; OpSet "c" "4"] = Done c ∧
        run_ops (empty_cache 2)
                [OpSet "a" "1"; OpGet "a"; OpSet "a" "2"; OpSet "b" "3";
                 OpGet "zz"; OpSet "c" "4"] = Done c ∧
        Z.of_nat (size (entries c)) <= 2 ∧
        NoDup (keys c) ∧
        (∀ k, k ∈ keys c ↔ snd (Cache_Get c k) = true) ∧
        keys c = ["b"; "c"])
  ∧ (∃ c, run_new 2 (sets [("a", "1"); ("b", "2"); ("c", "3")]) = Done c ∧
          run_ops (empty_cache 2) (sets [("a", "1"); ("b", "2"); ("c", "3")]) = Done c ∧
          ∀ (i : nat) (k v : string),
            [("a", "1"); ("b", "2"); ("c", "3")] !! i = Some (k, v) →
            Cache_Get c k = if decide (i = 0%nat) then (EmptyString, false)
                            else (v, true)).
Proof.
  apply (cache_fifo_invariant 2 (empty_cache 2)
           [OpSet "a" "1"; OpGet "a"; OpSet "a" "2"; OpSet "b" "3";
            OpGet "zz"; OpSet "c" "4"]
           [("a", "1"); ("b", "2"); ("c", "3")]);
    [lia | reflexivity | apply (bool_decide_unpack _); vm_compute; exact I
    | reflexivity].
Defined.

(** ** The line pipeline *)

Section pipeline_facts.
Implicit Types (line s : string) (lines : list string) (c : Cache).

Lemma strings_Split_head (sep : ascii) s :
  ∃ tl, strings_Split s sep = before_first sep s :: tl.
Proof.
  induction s as [|ch s [tl IH]]; simpl.
  - by exists [].
  - destruct (Ascii.eqb ch sep); [eauto |]. rewrite IH. eauto.
Qed.

(** With a separator, the parts are the text before the first one and the
    parts of the text after it. *)
Lemma strings_Split_after (sep : ascii) s rest :
  after_first sep s = Some rest →
  strings_Split s sep = before_first sep s :: strings_Split rest sep.
Proof.
  induction s as [|ch s IH]; simpl; [done |].
  destruct (Ascii.eqb ch sep).
  - by intros [= ->].
  - intros Hrest. rewrite (IH Hrest). reflexivity.
Qed.

(** Without a separator there is one part, the string. *)
Lemma strings_Split_none (sep : ascii) s :
  contains s sep = false → strings_Split s sep = [s].
Proof.
  unfold contains. induction s as [|ch s IH]; simpl; [done |].
  rewrite (Ascii.eqb_sym sep ch).
  destruct (Ascii.eqb ch sep); simpl; [done |].
  intros Hno. by rewrite (IH Hno).
Qed.

Lemma before_first_none (sep : ascii) s :
  contains s sep = false → before_first sep s = s.
Proof.
  unfold contains. induction s as [|ch s IH]; simpl; [done |].
  rewrite (Ascii.eqb_sym sep ch).
  destruct (Ascii.eqb ch sep); simpl; [done |].
  intros Hno. by rewrite (IH Hno).
Qed.

Lemma after_first_contains (sep : ascii) s :
  contains s sep = true ↔ is_Some (after_first sep s).
Proof.
  unfold contains. induction s as [|ch s IH]; simpl.
  - split; [done | by intros []].
  - rewrite (Ascii.eqb_sym sep ch).
    destruct (Ascii.eqb ch sep); simpl; [| done].
    split; eauto.
Qed.

Lemma bitstring_no_colon s : is_bitstring s = true → contains s ":" = false.
Proof.
  unfold is_bitstring, contains. induction (chars s) as [|ch l IH]; simpl; [done |].
  intros [Hb Hl]%andb_true_iff. rewrite (IH Hl), orb_false_r.
  apply is_bit_cases in Hb as [-> | ->]; reflexivity.
Qed.

(** A line with a [':']: the size token is the text before the first one,
    the payload is the text between the first and the second. *)
Lemma line_output_colon line rest :
  after_first ":" line = Some rest →
  line_output line =
    Done (fmt_Sprintf_s_colon_s (before_first ":" line)
            (strings_ToUpper (hex_EncodeToString
               (pack (chars (before_first ":" rest))))), None).
Proof.
  intros Hrest. unfold line_output.
  rewrite (strings_Split_after _ _ _ Hrest).
  destruct (strings_Split_head ":" rest) as [tl ->].
  unfold index. cbn [lookup list_lookup]. rewrite !bind_Done.
  rewrite binToHex_pack, bind_Done. reflexivity.
Qed.

(** A line without [':']: reading [parts[1]] panics. *)
Lemma line_output_no_colon line :
  contains line ":" = false →
  line_output line = Panic (IndexOutOfRange 1 1).
Proof.
  intros Hno. unfold line_output. by rewrite (strings_Split_none _ _ Hno).
Qed.

Lemma line_output_cases line :
  (∃ v, line_output line = Done (v, None)) ∨ (∃ p, line_output line = Panic p).
Proof.
  destruct (contains line ":") eqn:Hc.
  - apply after_first_contains in Hc as [rest Hrest].
    left. eexists. by apply line_output_colon.
  - right. eexists. by apply line_output_no_colon.
Qed.

(** The steps of the two scanning loops in terms of [line_output]. *)
Lemma convertWithoutCache_scan_cons line lines e w :
  convertWithoutCache_scan (line :: lines) e w =
    '(newLine, err) ← line_output line;
    match err with
    | Some e' => Done {| written := w; flushed := false; ret := Some e' |}
    | None => convertWithoutCache_scan lines e (w +:+ (newLine +:+ newline))
    end.
Proof.
  cbn [convertWithoutCache_scan]. unfold line_output.
  destruct (index (strings_Split line ":") 0) as [matrixSize|]; [| done].
  rewrite !bind_Done.
  destruct (index (strings_Split line ":") 1) as [binaryStr|]; [| done].
  rewrite !bind_Done.
  destruct (binToHex binaryStr) as [[hexStr err]|]; [| done].
  by rewrite !bind_Done.
Qed.

Lemma convertWithCache_scan_hit line lines e c w v :
  Cache_Get c line = (v, true) →
  convertWithCache_scan (line :: lines) e c w =
    convertWithCache_scan lines e c (w +:+ (v +:+ newline)).
Proof. intros Hget. cbn [convertWithCache_scan]. by rewrite Hget. Qed.

Lemma convertWithCache_scan_miss line lines e c w :
  snd (Cache_Get c line) = false →
  convertWithCache_scan (line :: lines) e c w =
    '(newLine, err) ← line_output line;
    match err with
    | Some e' => Done (c, {| written := w; flushed := false; ret := Some e' |})
    | None =>
        cache' ← Cache_Set c line newLine;
        convertWithCache_scan lines e cache' (w +:+ (newLine +:+ newline))
    end.
Proof.
  intros Hget. cbn [convertWithCache_scan].
  destruct (Cache_Get c line) as [v found]. simpl in Hget. subst found.
  unfold line_output.
  destruct (index (strings_Split line ":") 0) as [matrixSize|]; [| done].
  rewrite !bind_Done.
  destruct (index (strings_Split line ":") 1) as [binaryStr|]; [| done].
  rewrite !bind_Done.
  destruct (binToHex binaryStr) as [[hexStr err]|]; [| done].
  by rewrite !bind_Done.
Qed.

Lemma cache_sound_empty capacity : cache_sound (empty_cache capacity).
Proof. intros k v Hk. simpl in Hk. by rewrite lookup_empty in Hk. Qed.

Lemma cache_sound_Set c c' line v :
  cache_inv c → cache_sound c → line_output line = Done (v, None) →
  Cache_Set c line v = Done c' → cache_sound c'.
Proof.
  intros Hinv Hsound Hout Hset.
  destruct (Cache_Set_cases c line v Hinv)
    as [[_ Heq] | [(Hk & Hlt & Heq) | (Hk & Hge & oldest & ks & Hks & Heq)]];
    rewrite Heq in Hset; injection Hset as <-; [done | |];
    intros k v' Hlook; simpl in Hlook;
    (destruct (decide (line = k)) as [->|Hne];
     [ rewrite lookup_insert_eq in Hlook; congruence
     | rewrite lookup_insert_ne in Hlook by done ]).
  - by apply Hsound.
  - apply lookup_delete_Some in Hlook as [_ Hlook]. by apply Hsound.
Qed.

(** On a cache that satisfies the invariant and stores only output lines,
    the cached loop does what the loop without cache does. *)
Lemma convertWithCache_scan_equiv lines e : ∀ c w,
  cache_inv c → cache_sound c →
  forget_cache (convertWithCache_scan lines e c w) =
    convertWithoutCache_scan lines e w.
Proof.
  induction lines as [|line lines IH]; intros c w Hinv Hsound; [reflexivity |].
  rewrite convertWithoutCache_scan_cons.
  destruct (Cache_Get c line) as [v found] eqn:Hget. destruct found.
  - rewrite (convertWithCache_scan_hit _ _ _ _ _ _ Hget).
    apply Cache_Get_found in Hget. rewrite (Hsound _ _ Hget), bind_Done.
    by apply IH.
  - rewrite convertWithCache_scan_miss by (by rewrite Hget).
    destruct (line_output_cases line) as [[v' Hout] | [p Hout]]; rewrite Hout.
    + rewrite !bind_Done.
      destruct (cache_inv_Set c line v' Hinv) as (c' & Hset & Hinv' & _).
      rewrite Hset, bind_Done. apply IH; [done |].
      exact (cache_sound_Set c c' line v' Hinv Hsound Hout Hset).
    + reflexivity.
Qed.

(** Lines that all have a [':'] are processed without a panic. *)
Lemma convertWithoutCache_scan_done lines e : ∀ w,
  Forall (fun line => contains line ":" = true) lines →
  ∃ out, convertWithoutCache_scan lines e w =
           Done {| written := out; flushed := true; ret := e |}.
Proof.
  induction lines as [|line lines IH]; intros w Hall.
  - by exists w.
  - apply Forall_cons in Hall as [Hc Hall].
    apply after_first_contains in Hc as [rest Hrest].
    rewrite convertWithoutCache_scan_cons, (line_output_colon _ _ Hrest), bind_Done.
    by apply IH.
Qed.

Lemma well_formed_contains line :
  well_formed_line line = true → contains line ":" = true.
Proof.
  unfold well_formed_line. intros Hwf. apply after_first_contains.
  destruct (after_first ":" line); [eauto | discriminate].
Qed.
End pipeline_facts.

(** ** Claims on the line pipeline *)

Lemma main_cached_scan (capacity : Z) (c0 : Cache) (lines : list string)
    (e : option error) :
  NewCache capacity = Done c0 →
  main_cached capacity (lines_source lines e) =
    convertWithCache_scan lines e (empty_cache capacity) EmptyString.
Proof.
  intros Hnew. unfold main_cached. rewrite Hnew, bind_Done.
  apply NewCache_returned in Hnew as ->. reflexivity.
Qed.

Lemma Cache_Get_empty (capacity : Z) (key : string) :
  Cache_Get (empty_cache capacity) key = (EmptyString, false).
Proof. unfold Cache_Get. simpl. by rewrite lookup_empty. Qed.

Lemma Cache_Set_empty (capacity : Z) (key value : string) :
  1 <= capacity →
  Cache_Set (empty_cache capacity) key value =
    Done {| maxEntries := capacity;
            entries := <[key := value]> ∅;
            keys := [key] |}.
Proof.
  intros Hcap. rewrite Cache_Set_room; simpl.
  - reflexivity.
  - apply lookup_empty.
  - rewrite map_size_empty. lia.
Qed.

Lemma convertWithoutCache_scan_panic (line : string) (rest : list string)
    (e : option error) (pre : list string) : ∀ w,
  Forall (fun l => contains l ":" = true) pre →
  contains line ":" = false →
  convertWithoutCache_scan (pre ++ line :: rest) e w = Panic (IndexOutOfRange 1 1).
Proof.
  induction pre as [|l pre IH]; intros w Hpre Hno.
  - by rewrite app_nil_l, convertWithoutCache_scan_cons, line_output_no_colon.
  - apply Forall_cons in Hpre as [Hc Hpre].
    apply after_first_contains in Hc as [tl Htl].
    rewrite <- app_comm_cons, convertWithoutCache_scan_cons.
    rewrite (line_output_colon _ _ Htl), bind_Done. by apply IH.
Qed.

(** C2, on the code: the first line without [':'] makes both pipelines
    panic with an index out of range at [parts[1]]; no error value is
    returned.  The cached pipeline is the one [main] runs, on the cache
    that [NewCache] returned for a capacity of at least 1. *)
Theorem no_colon_line_panics (pre : list string) (line : string)
    (rest : list string) (e : option error) :
  Forall (fun l => contains l ":" = true) pre →
  contains line ":" = false →
  convertWithoutCache (lines_source (pre ++ line :: rest) e)
    = Panic (IndexOutOfRange 1 1)
  ∧ ∀ capacity c0, 1 <= capacity → NewCache capacity = Done c0 →
      convertWithCache (lines_source (pre ++ line :: rest) e) c0
        = Panic (IndexOutOfRange 1 1)
      ∧ main_cached capacity (lines_source (pre ++ line :: rest) e)
        = Panic (IndexOutOfRange 1 1).
Proof.
  intros Hpre Hno.
  assert (convertWithoutCache_scan (pre ++ line :: rest) e EmptyString
            = Panic (IndexOutOfRange 1 1)) as Hscan
    by (by apply convertWithoutCache_scan_panic).
  split; [exact Hscan |].
  intros capacity c0 Hcap Hnew.
  assert (convertWithCache (lines_source (pre ++ line :: rest) e) c0
          = Panic (IndexOutOfRange 1 1)) as Hcached.
  { apply NewCache_returned in Hnew as ->.
    pose proof (convertWithCache_scan_equiv (pre ++ line :: rest) e
                  (empty_cache capacity) EmptyString
                  (cache_inv_empty capacity Hcap) (cache_sound_empty capacity)) as Heq.
    rewrite Hscan in Heq. unfold convertWithCache.
    cbn [openErr createErr scanned scanErr lines_source].
    destruct (convertWithCache_scan _ _ _ _) as [[c r]|p]; [discriminate |].
    injection Heq as ->. reflexivity. }
  split; [exact Hcached |].
  unfold main_cached. by rewrite Hnew, bind_Done.
Qed.

Lemma no_colon_line_panics_witness :
  convertWithoutCache (lines_source (["4:01000001"] ++ "401000001" :: ["4:11"]) None)
    = Panic (IndexOutOfRange 1 1)
  ∧ ∀ capacity c0, 1 <= capacity → NewCache capacity = Done c0 →
      convertWithCache
        (lines_source (["4:01000001"] ++ "401000001" :: ["4:11"]) None) c0
        = Panic (IndexOutOfRange 1 1)
      ∧ main_cached capacity
        (lines_source (["4:01000001"] ++ "401000001" :: ["4:11"]) None)
        = Panic (IndexOutOfRange 1 1).
Proof.
  apply (no_colon_line_panics ["4:01000001"] "401000001" ["4:11"] None);
    [apply (bool_decide_unpack _); vm_compute; exact I | reflexivity].
Defined.

(** C5, as the code has it: a line with a [':'] is split at every [':'];
    the size token, everything before the first [':'], goes to the output
    unchanged, and the payload handed to [binToHex] is the text after the
    first [':'] up to the second one, or to the end of the line when there
    is no second one (then it is everything after the first [':']).  Both
    pipelines write the size token, [':'] and the encoding of that payload;
    the cached one runs on the cache that [NewCache] returned. *)
Theorem record_split_at_colons (line rest : string) (capacity : Z) (c0 : Cache) :
  after_first ":" line = Some rest →
  1 <= capacity →
  NewCache capacity = Done c0 →
  ∃ (hexStr : string) (c : Cache),
    binToHex (before_first ":" rest) = Done (hexStr, None) ∧
    convertWithoutCache (lines_source [line] None) =
      Done {| written := fmt_Sprintf_s_colon_s (before_first ":" line) hexStr +:+ newline;
              flushed := true; ret := None |} ∧
    main_cached capacity (lines_source [line] None) =
      Done (c, {| written := fmt_Sprintf_s_colon_s (before_first ":" line) hexStr +:+ newline;
                  flushed := true; ret := None |}) ∧
    (contains rest ":" = false → before_first ":" rest = rest).
Proof.
  intros Hrest Hcap Hnew.
  exists (strings_ToUpper (hex_EncodeToString (pack (chars (before_first ":" rest))))).
  eexists. split_and!.
  - apply binToHex_pack.
  - unfold convertWithoutCache. cbn [openErr createErr scanned scanErr lines_source].
    rewrite convertWithoutCache_scan_cons, (line_output_colon _ _ Hrest), bind_Done.
    reflexivity.
  - rewrite (main_cached_scan _ _ _ _ Hnew).
    rewrite convertWithCache_scan_miss by (by rewrite Cache_Get_empty).
    rewrite (line_output_colon _ _ Hrest), bind_Done.
    rewrite Cache_Set_empty by done. rewrite bind_Done. reflexivity.
  - apply before_first_none.
Qed.

Lemma record_split_at_colons_witness :
  ∃ (hexStr : string) (c : Cache),
    binToHex "01" = Done (hexStr, None) ∧
    convertWithoutCache (lines_source ["4:01:10"] None) =
      Done {| written := fmt_Sprintf_s_colon_s "4" hexStr +:+ newline;
              flushed := true; ret := None |} ∧
    main_cached 3 (lines_source ["4:01:10"] None) =
      Done (c, {| written := fmt_Sprintf_s_colon_s "4" hexStr +:+ newline;
                  flushed := true; ret := None |}) ∧
    (contains "01:10" ":" = false → before_first ":" "01:10" = "01:10").
Proof.
  apply (record_split_at_colons "4:01:10" "01:10" 3 (empty_cache 3));
    [reflexivity | lia | reflexivity].
Defined.

(** C5, as the specification words it, fails: of the line ["4:01:10"] the
    code encodes ["01"], not ["01:10"], and writes ["4:01"]. *)
Lemma payload_is_rest_of_line_counterexample :
  contains "4:01:10" ":" = true ∧
  after_first ":" "4:01:10" = Some "01:10" ∧
  convertWithoutCache (lines_source ["4:01:10"] None) =
    Done {| written := "4:01" +:+ newline; flushed := true; ret := None |} ∧
  ¬ payload_is_rest_of_line "4:01:10".
Proof.
  split_and!; try reflexivity.
  intros (payload & hexStr & Hafter & Henc & Hrun).
  vm_compute in Hafter. injection Hafter as <-.
  vm_compute in Henc. injection Henc as <-.
  vm_compute in Hrun. discriminate.
Qed.

(** C10: for an input whose lines are all well-formed and a capacity of at
    least 1 for which [NewCache] returned a cache, the cached and the
    non-cached pipeline complete with the same result (written text, flush,
    returned error).  The line ["4:01000001"] gives ["4:41"] in both; after
    it the cache holds ["4:41"] under the line, a repeated line is written
    from that stored value without a change of the cache, and the input
    with the line twice gives ["4:41"] twice in both.  A line found in the
    cache is served from it: what is written is the stored value, whatever
    it is, also one that differs from the line's encoding. *)
Theorem cached_equals_noncached (src : source) (capacity : Z) (c0 : Cache) :
  1 <= capacity →
  NewCache capacity = Done c0 →
  Forall (fun line => well_formed_line line = true) (scanned src) →
  (∃ (c : Cache) (r : result),
     main_cached capacity src = Done (c, r) ∧ convertWithoutCache src = Done r)
  ∧ (let line := "4:01000001" in
     let out := "4:41" +:+ newline in
     let c1 := {| maxEntries := capacity;
                  entries := <[line := "4:41"]> ∅;
                  keys := [line] |} in
     let stale := {| maxEntries := capacity;
                     entries := <[line := "stale"]> ∅;
                     keys := [line] |} in
     convertWithoutCache (lines_source [line] None) =
       Done {| written := out; flushed := true; ret := None |} ∧
     main_cached capacity (lines_source [line] None) =
       Done (c1, {| written := out; flushed := true; ret := None |}) ∧
     Cache_Get c1 line = ("4:41", true) ∧
     convertWithCache_scan [line] None c1 out =
       Done (c1, {| written := out +:+ out; flushed := true; ret := None |}) ∧
     main_cached capacity (lines_source [line; line] None) =
       Done (c1, {| written := out +:+ out; flushed := true; ret := None |}) ∧
     convertWithoutCache (lines_source [line; line] None) =
       Done {| written := out +:+ out; flushed := true; ret := None |} ∧
     convertWithCache (lines_source [line] None) stale =
       Done (stale, {| written := "stale" +:+ newline; flushed := true; ret := None |}))
  ∧ (∀ (c : Cache) (l v w : string),
       Cache_Get c l = (v, true) →
       convertWithCache_scan [l] None c w =
         Done (c, {| written := w +:+ (v +:+ newline); flushed := true; ret := None |})).
Proof.
  intros Hcap Hnew Hwf. split_and!.
  - unfold main_cached, convertWithCache, convertWithoutCache.
    rewrite Hnew, bind_Done. apply NewCache_returned in Hnew as ->.
    destruct (openErr src) as [e|]; [eauto |].
    destruct (createErr src) as [e|]; [eauto |].
    assert (Forall (fun line => contains line ":" = true) (scanned src)) as Hcolon.
    { eapply Forall_impl; [exact Hwf |]. intros line. apply well_formed_contains. }
    destruct (convertWithoutCache_scan_done (scanned src) (scanErr src)
                EmptyString Hcolon) as [out Hout].
    pose proof (convertWithCache_scan_equiv (scanned src) (scanErr src)
                  (empty_cache capacity) EmptyString
                  (cache_inv_empty capacity Hcap) (cache_sound_empty capacity)) as Heq.
    rewrite Hout in Heq. rewrite Hout.
    destruct (convertWithCache_scan _ _ _ _) as [[c r]|p]; [| discriminate].
    injection Heq as ->. eauto.
  - intros line out c1 stale.
    assert (line_output line = Done ("4:41", None)) as Hline
      by (vm_compute; reflexivity).
    assert (Cache_Get c1 line = ("4:41", true)) as Hget.
    { unfold Cache_Get, c1. cbn [entries]. by rewrite lookup_insert_eq. }
    assert (Cache_Get stale line = ("stale", true)) as Hstale.
    { unfold Cache_Get, stale. cbn [entries]. by rewrite lookup_insert_eq. }
    assert (main_cached capacity (lines_source [line] None) =
              Done (c1, {| written := out; flushed := true; ret := None |})) as Hone.
    { rewrite (main_cached_scan _ _ _ _ Hnew).
      rewrite convertWithCache_scan_miss by (by rewrite Cache_Get_empty).
      rewrite Hline, bind_Done, Cache_Set_empty by done. reflexivity. }
    split_and!.
    + reflexivity.
    + exact Hone.
    + exact Hget.
    + by rewrite (convertWithCache_scan_hit _ _ _ _ _ _ Hget).
    + rewrite (main_cached_scan _ _ _ _ Hnew).
      rewrite convertWithCache_scan_miss by (by rewrite Cache_Get_empty).
      rewrite Hline, bind_Done, Cache_Set_empty by done. rewrite bind_Done.
      fold c1. by rewrite (convertWithCache_scan_hit _ _ _ _ _ _ Hget).
    + reflexivity.
    + unfold convertWithCache. cbn [openErr createErr scanned scanErr lines_source].
      by rewrite (convertWithCache_scan_hit _ _ _ _ _ _ Hstale).
  - intros c l v w Hget.
    by rewrite (convertWithCache_scan_hit _ _ _ _ _ _ Hget).
Qed.

Lemma cached_equals_noncached_witness :
  (∃ (c : Cache) (r : result),
     main_cached 2 (lines_source ["4:01000001"; "8:1111000010100101"; "4:01000001"] None)
       = Done (c, r) ∧
     convertWithoutCache
       (lines_source ["4:01000001"; "8:1111000010100101"; "4:01000001"] None)
       = Done r)
  ∧ (let line := "4:01000001" in
     let out := "4:41" +:+ newline in
     let c1 := {| maxEntries := 2;
                  entries := <[line := "4:41"]> ∅;
                  keys := [line] |} in
     let stale := {| maxEntries := 2;
                     entries := <[line := "stale"]> ∅;
                     keys := [line] |} in
     convertWithoutCache (lines_source [line] None) =
       Done {| written := out; flushed := true; ret := None |} ∧
     main_cached 2 (lines_source [line] None) =
       Done (c1, {| written := out; flushed := true; ret := None |}) ∧
     Cache_Get c1 line = ("4:41", true) ∧
     convertWithCache_scan [line] None c1 out =
       Done (c1, {| written := out +:+ out; flushed := true; ret := None |}) ∧
     main_cached 2 (lines_source [line; line] None) =
       Done (c1, {| written := out +:+ out; flushed := true; ret := None |}) ∧
     convertWithoutCache (lines_source [line; line] None) =
       Done {| written := out +:+ out; flushed := true; ret := None |} ∧
     convertWithCache (lines_source [line] None) stale =
       Done (stale, {| written := "stale" +:+ newline; flushed := true; ret := None |}))
  ∧ (∀ (c : Cache) (l v w : string),
       Cache_Get c l = (v, true) →
       convertWithCache_scan [l] None c w =
         Done (c, {| written := w +:+ (v +:+ newline); flushed := true; ret := None |})).
Proof.
  apply (cached_equals_noncached
           (lines_source ["4:01000001"; "8:1111000010100101"; "4:01000001"] None)
           2 (empty_cache 2));
    [lia | reflexivity | apply (bool_decide_unpack _); vm_compute; exact I].
Defined.

(** * Further properties of the code *)

(** ** The codec *)

Section codec_more.
Implicit Types (s h b : string) (l : list ascii) (bs : list Z).

Lemma hex_EncodeToString_app bs1 bs2 :
  hex_EncodeToString (bs1 ++ bs2) = hex_EncodeToString bs1 +:+ hex_EncodeToString bs2.
Proof. induction bs1 as [|v bs1 IH]; simpl; [reflexivity | by rewrite IH]. Qed.

Lemma strings_ToUpper_app s1 s2 :
  strings_ToUpper (s1 +:+ s2) = strings_ToUpper s1 +:+ strings_ToUpper s2.
Proof. induction s1 as [|c s1 IH]; simpl; [reflexivity | by rewrite IH]. Qed.

(** Packing goes group by group: a prefix of full groups packs on its own. *)
Lemma pack_app_full : ∀ (n : nat) l1 l2,
  length l1 = (8 * n)%nat → pack (l1 ++ l2) = pack l1 ++ pack l2.
Proof.
  induction n as [|n IH]; intros l1 l2 Hlen.
  - destruct l1; [reflexivity | simpl in Hlen; lia].
  - rewrite <- (take_drop 8 l1), <- app_assoc.
    assert (length (take 8 l1) = 8%nat) as Hg by (rewrite length_take; lia).
    rewrite (pack_app8 (take 8 l1) (drop 8 l1 ++ l2)) by done.
    rewrite (pack_app8 (take 8 l1) (drop 8 l1)) by done.
    rewrite IH by (rewrite length_drop; lia). reflexivity.
Qed.

(** The result of [binToHex] is made of the digits [0]-[9] and [A]-[F] only,
    whatever the input. *)
Theorem binToHex_upper_hex s :
  ∃ hexStr, binToHex s = Done (hexStr, None) ∧
            forallb is_upper_hexdigit (chars hexStr) = true.
Proof.
  eexists. split; [apply binToHex_pack |]. apply hex_upper_charset, pack_range.
Qed.

(** [binToHex] works group by group: after a prefix whose length is a
    multiple of 8, the encoding of a concatenation is the concatenation of
    the encodings. *)
Theorem binToHex_app a b :
  (String.length a `mod` 8 = 0)%nat →
  ∃ ha hb, binToHex a = Done (ha, None) ∧ binToHex b = Done (hb, None) ∧
           binToHex (a +:+ b) = Done (ha +:+ hb, None).
Proof.
  intros Hmod. do 2 eexists.
  split_and!; [apply binToHex_pack | apply binToHex_pack |].
  rewrite binToHex_pack, chars_app.
  rewrite (pack_app_full (String.length a / 8)).
  - by rewrite hex_EncodeToString_app, strings_ToUpper_app.
  - rewrite chars_length. div8 (String.length a). lia.
Qed.

Lemma binToHex_app_witness :
  ∃ ha hb, binToHex "01000001" = Done (ha, None) ∧ binToHex "101" = Done (hb, None) ∧
           binToHex ("01000001" +:+ "101") = Done (ha +:+ hb, None).
Proof. apply (binToHex_app "01000001" "101"). reflexivity. Defined.

(** Decoding what [binToHex] returns never fails, and encoding the decoded
    digits gives the same hex string again, for every input string. *)
Theorem encode_decode_encode s :
  ∃ h b, binToHex s = Done (h, None) ∧ hexToBin h = (b, None) ∧
         binToHex b = Done (h, None).
Proof.
  do 2 eexists. split_and!.
  - apply binToHex_pack.
  - apply hexToBin_bits, hex_decode_encode, pack_range.
  - rewrite binToHex_pack, chars_of_list.
    by rewrite pack_bits_of_bytes by apply pack_range.
Qed.

Lemma pack_inj_hex l1 l2 :
  strings_ToUpper (hex_EncodeToString (pack l1)) =
    strings_ToUpper (hex_EncodeToString (pack l2)) →
  pack l1 = pack l2.
Proof.
  intros Heq.
  pose proof (hex_decode_encode (pack l1) (pack_range l1)) as H1.
  pose proof (hex_decode_encode (pack l2) (pack_range l2)) as H2.
  rewrite Heq in H1. congruence.
Qed.

(** On bit strings of one length [binToHex] is injective: two payloads of
    the same size with the same encoding are equal. *)
Theorem binToHex_inj_same_length b1 b2 :
  is_bitstring b1 = true → is_bitstring b2 = true →
  String.length b1 = String.length b2 →
  binToHex b1 = binToHex b2 →
  b1 = b2.
Proof.
  intros Hb1 Hb2 Hlen Heq. rewrite !binToHex_pack in Heq.
  injection Heq as Heq. apply pack_inj_hex in Heq.
  apply (f_equal bits_of_bytes) in Heq.
  rewrite (bits_of_bytes_pack (length (chars b1))) in Heq by (done || lia).
  rewrite (bits_of_bytes_pack (length (chars b2))) in Heq by (done || lia).
  rewrite !chars_length, <- Hlen in Heq.
  apply chars_inj.
  rewrite <- (take_drop (8 * (String.length b1 / 8)) (chars b1)).
  rewrite <- (take_drop (8 * (String.length b1 / 8)) (chars b2)).
  assert (length (chars b2) = length (chars b1)) as Hl
    by (by rewrite !chars_length).
  destruct (decide (String.length b1 `mod` 8 = 0)%nat) as [Hz|Hnz].
  - rewrite !app_nil_r in Heq. rewrite Heq.
    rewrite !drop_ge; [done | |]; rewrite ?Hl, chars_length;
      div8 (String.length b1); lia.
  - apply app_inj_1 in Heq as [Htake Hrest].
    + apply app_inv_head in Hrest. by rewrite Htake, Hrest.
    + rewrite !length_take. lia.
Qed.

Lemma binToHex_inj_same_length_witness : "0110" = "0110".
Proof.
  apply (binToHex_inj_same_length "0110" "0110"); reflexivity.
Defined.

Lemma hexToBin_snd h : snd (hexToBin h) = snd (hex_DecodeString h).
Proof.
  unfold hexToBin. destruct (hex_DecodeString h) as [bs [e|]]; reflexivity.
Qed.

Lemma fromHexChar_not_hexdigit (c : ascii) :
  is_hexdigit c = false → fromHexChar c = None.
Proof.
  destruct c as [[] [] [] [] [] [] [] []]; vm_compute; intros H;
    (reflexivity || discriminate).
Qed.

Lemma fromHexChar_is_Some (c : ascii) :
  is_hexdigit c = true → is_Some (fromHexChar c).
Proof.
  intros H. destruct (fromHexChar_hexdigit c H) as (a & Ha & _). eauto.
Qed.

Lemma forallb_hexdigit_pair p q rest :
  forallb is_hexdigit (chars (String p (String q rest))) =
    is_hexdigit p && is_hexdigit q && forallb is_hexdigit (chars rest).
Proof. simpl. by rewrite andb_assoc. Qed.

(** [hexToBin] returns a nil error exactly on the valid hex strings: even
    length and hex digits only. *)
Theorem hexToBin_ok_iff h :
  snd (hexToBin h) = None ↔ is_hexstring h = true.
Proof.
  split.
  - rewrite hexToBin_snd.
    induction h as [|c|p q rest IH] using string_pair_ind; simpl.
    + done.
    + destruct (fromHexChar c); discriminate.
    + rewrite is_hexstring_pair.
      destruct (is_hexdigit p) eqn:Hp;
        [| by rewrite (fromHexChar_not_hexdigit p Hp)].
      destruct (fromHexChar_is_Some p Hp) as [a ->].
      destruct (is_hexdigit q) eqn:Hq;
        [| by rewrite (fromHexChar_not_hexdigit q Hq)].
      destruct (fromHexChar_is_Some q Hq) as [b' ->].
      destruct (hex_DecodeString rest) as [bs err]. simpl in *. exact IH.
  - intros Hvalid. destruct (hex_decode_valid h Hvalid) as (bs & Hdec & _).
    by rewrite (hexToBin_bits h bs Hdec).
Qed.

(** An odd number of hex digits: [hexToBin] returns the empty string and
    the odd-length error. *)
Theorem hexToBin_odd_digits h :
  forallb is_hexdigit (chars h) = true →
  Nat.odd (String.length h) = true →
  hexToBin h = (EmptyString, Some ErrLength).
Proof.
  intros Hhex Hodd.
  enough (∃ bs, hex_DecodeString h = (bs, Some ErrLength)) as [bs Hdec]
    by (by eapply hexToBin_error).
  induction h as [|c|p q rest IH] using string_pair_ind.
  - discriminate.
  - simpl in Hhex. apply andb_true_iff in Hhex as [Hc _].
    destruct (fromHexChar_is_Some c Hc) as [a Ha]. simpl. rewrite Ha. eauto.
  - rewrite forallb_hexdigit_pair in Hhex.
    apply andb_true_iff in Hhex as [[Hp Hq]%andb_true_iff Hrest].
    destruct (IH Hrest Hodd) as [bs Hdec].
    destruct (fromHexChar_is_Some p Hp) as [a Ha].
    destruct (fromHexChar_is_Some q Hq) as [b' Hb].
    rewrite hex_DecodeString_pair, Ha, Hb, Hdec. eauto.
Qed.

Lemma hexToBin_odd_digits_witness :
  hexToBin "4A1" = (EmptyString, Some ErrLength).
Proof. apply (hexToBin_odd_digits "4A1"); reflexivity. Defined.

(** A character that is no hex digit, after hex digits only: [hexToBin]
    returns the empty string and the invalid-byte error of that first bad
    character, whatever follows it and whatever the length. *)
Theorem hexToBin_first_invalid_byte pre (c : ascii) post :
  forallb is_hexdigit (chars pre) = true →
  is_hexdigit c = false →
  hexToBin (pre +:+ String c post) = (EmptyString, Some (InvalidByteError c)).
Proof.
  intros Hpre Hc.
  enough (∃ bs, hex_DecodeString (pre +:+ String c post)
                = (bs, Some (InvalidByteError c))) as [bs Hdec]
    by (by eapply hexToBin_error).
  pose proof (fromHexChar_not_hexdigit c Hc) as Hnone.
  induction pre as [|p|p q rest IH] using string_pair_ind.
  - destruct post as [|q post]; simpl; rewrite Hnone; eauto.
  - simpl in Hpre. apply andb_true_iff in Hpre as [Hp _].
    destruct (fromHexChar_is_Some p Hp) as [a Ha].
    change (String p EmptyString +:+ String c post) with (String p (String c post)).
    rewrite hex_DecodeString_pair, Ha, Hnone. eauto.
  - rewrite forallb_hexdigit_pair in Hpre.
    apply andb_true_iff in Hpre as [[Hp Hq]%andb_true_iff Hrest].
    destruct (IH Hrest) as [bs Hdec].
    destruct (fromHexChar_is_Some p Hp) as [a Ha].
    destruct (fromHexChar_is_Some q Hq) as [b' Hb].
    change (String p (String q rest) +:+ String c post)
      with (String p (String q (rest +:+ String c post))).
    rewrite hex_DecodeString_pair, Ha, Hb, Hdec. eauto.
Qed.

Lemma hexToBin_first_invalid_byte_witness :
  hexToBin ("4a1" +:+ String "x" "zz") = (EmptyString, Some (InvalidByteError "x")).
Proof. apply (hexToBin_first_invalid_byte "4a1" "x" "zz"); reflexivity. Defined.
End codec_more.

Section hexToBin_more.
Implicit Types (s h b : string) (bs : list Z).

Lemma hex_DecodeString_length h : ∀ bs,
  hex_DecodeString h = (bs, None) → String.length h = (2 * length bs)%nat.
Proof.
  induction h as [|c|p q rest IH] using string_pair_ind; intros bs Hdec.
  - by injection Hdec as <-.
  - simpl in Hdec. destruct (fromHexChar c); discriminate.
  - rewrite hex_DecodeString_pair in Hdec.
    destruct (fromHexChar p); [| discriminate].
    destruct (fromHexChar q); [| discriminate].
    destruct (hex_DecodeString rest) as [bs' err].
    injection Hdec as <- ->. simpl. rewrite (IH bs') by done. lia.
Qed.

Lemma fmt_byte_bits v :
  0 <= v < 256 → forallb is_bit (chars (fmt_Sprintf_08b v)) = true.
Proof.
  apply (byte_forall (fun v => forallb is_bit (chars (fmt_Sprintf_08b v)))).
  vm_compute. reflexivity.
Qed.

Lemma bits_of_bytes_bits bs :
  Forall (fun v => 0 <= v < 256) bs →
  forallb is_bit (bits_of_bytes bs) = true ∧
  length (bits_of_bytes bs) = (8 * length bs)%nat.
Proof.
  induction 1 as [|v bs Hv _ [IHb IHl]]; [done |].
  rewrite bits_of_bytes_cons, forallb_app, length_app.
  destruct (pack_group_fmt v Hv) as [Hlen _].
  rewrite (fmt_byte_bits v Hv), IHb, Hlen, IHl. simpl. split; [done | lia].
Qed.

(** Of a valid hex string [hexToBin] returns a bit string with 4 digits for
    each hex digit. *)
Theorem hexToBin_bits_length h :
  is_hexstring h = true →
  ∃ b, hexToBin h = (b, None) ∧ is_bitstring b = true ∧
       String.length b = (4 * String.length h)%nat.
Proof.
  intros Hvalid. destruct (hex_decode_valid h Hvalid) as (bs & Hdec & Hrange & _).
  destruct (bits_of_bytes_bits bs Hrange) as [Hbits Hlen].
  eexists. split_and!; [by apply hexToBin_bits | |].
  - unfold is_bitstring. by rewrite chars_of_list.
  - rewrite <- chars_length, chars_of_list, Hlen.
    rewrite (hex_DecodeString_length h bs Hdec). lia.
Qed.

Lemma hexToBin_bits_length_witness :
  ∃ b, hexToBin "fF0a" = (b, None) ∧ is_bitstring b = true ∧
       String.length b = 16%nat.
Proof. apply (hexToBin_bits_length "fF0a"). reflexivity. Defined.

(** [hexToBin] ignores the case of the digits and nothing else: two valid
    hex strings decode to the same digits exactly when they are equal up to
    case. *)
Theorem hexToBin_eq_iff_upper h1 h2 :
  is_hexstring h1 = true → is_hexstring h2 = true →
  (hexToBin h1 = hexToBin h2 ↔ strings_ToUpper h1 = strings_ToUpper h2).
Proof.
  intros Hv1 Hv2.
  destruct (hex_decode_valid h1 Hv1) as (bs1 & Hdec1 & Hr1 & Hup1).
  destruct (hex_decode_valid h2 Hv2) as (bs2 & Hdec2 & Hr2 & Hup2).
  rewrite (hexToBin_bits h1 bs1 Hdec1), (hexToBin_bits h2 bs2 Hdec2).
  split.
  - intros Heq. injection Heq as Heq.
    apply (f_equal chars) in Heq. rewrite !chars_of_list in Heq.
    apply (f_equal pack) in Heq.
    rewrite !pack_bits_of_bytes in Heq by done.
    by rewrite <- Hup1, <- Hup2, Heq.
  - intros Heq. rewrite <- Hup1, <- Hup2 in Heq.
    pose proof (hex_decode_encode bs1 Hr1) as H1.
    pose proof (hex_decode_encode bs2 Hr2) as H2.
    rewrite Heq in H1. congruence.
Qed.

Lemma hexToBin_eq_iff_upper_witness :
  hexToBin "aB" = hexToBin "Ab" ↔ strings_ToUpper "aB" = strings_ToUpper "Ab".
Proof. apply (hexToBin_eq_iff_upper "aB" "Ab"); reflexivity. Defined.
End hexToBin_more.

(** ** The cache *)

Section cache_more.
Implicit Types (c : Cache) (k key value : string) (os : list op).

(** Insert then look up: after [Set] the key is found; it reads as the
    value it had when it was already stored, and as the new value when it
    was not. *)
Theorem Cache_Set_then_Get c key value :
  cache_inv c →
  ∃ c', Cache_Set c key value = Done c' ∧
        Cache_Get c' key =
          if snd (Cache_Get c key) then Cache_Get c key else (value, true).
Proof.
  intros Hinv. rewrite (Cache_Get_lookup c key).
  destruct (Cache_Set_cases c key value Hinv)
    as [[[old Hk] ->] | [(Hk & Hlt & ->) | (Hk & Hge & oldest & ks & Hks & ->)]];
    rewrite Hk; eexists; (split; [reflexivity |]); rewrite Cache_Get_lookup; simpl.
  - by rewrite Hk.
  - by rewrite lookup_insert_eq.
  - by rewrite lookup_insert_eq.
Qed.

Lemma Cache_Set_then_Get_witness :
  ∃ c', Cache_Set (empty_cache 1) "a" "x" = Done c' ∧
        Cache_Get c' "a" =
          if snd (Cache_Get (empty_cache 1) "a") then Cache_Get (empty_cache 1) "a"
          else ("x", true).
Proof.
  apply (Cache_Set_then_Get (empty_cache 1) "a" "x").
  constructor; simpl;
    [lia | vm_compute; discriminate | constructor |].
  intros k. split; [by intros ?%elem_of_nil | intros [v Hv]; by rewrite lookup_empty in Hv].
Defined.

(** What a [Set] of a new key does to the other keys: at capacity it
    removes the oldest key, the head of [keys], and nothing else; below
    capacity it removes nothing. *)
Theorem Cache_Set_other_keys c key value k :
  cache_inv c →
  snd (Cache_Get c key) = false →
  k ≠ key →
  ∃ c', Cache_Set c key value = Done c' ∧
        Cache_Get c' k =
          if decide (maxEntries c <= Z.of_nat (size (entries c)) ∧ head (keys c) = Some k)
          then (EmptyString, false)
          else Cache_Get c k.
Proof.
  intros Hinv Hmiss Hne.
  destruct (Cache_Set_cases c key value Hinv)
    as [[[old Hk] _] | [(Hk & Hlt & ->) | (Hk & Hge & oldest & ks & Hks & ->)]].
  - apply Cache_Get_missing in Hmiss. congruence.
  - eexists. split; [reflexivity |].
    destruct (decide _) as [[Hfull _]|_]; [lia |].
    rewrite !Cache_Get_lookup. simpl. by rewrite lookup_insert_ne.
  - eexists. split; [reflexivity |].
    rewrite !Cache_Get_lookup. simpl. rewrite lookup_insert_ne by done.
    rewrite Hks. simpl.
    destruct (decide _) as [[_ [= ->]]|Hnot].
    + by rewrite lookup_delete_eq.
    + rewrite lookup_delete_ne; [done |]. intros ->. apply Hnot. by split.
Qed.

Lemma Cache_Set_other_keys_witness :
  let c := {| maxEntries := 1; entries := <["a" := "x"]> ∅; keys := [] ++ ["a"] |} in
  ∃ c', Cache_Set c "b" "y" = Done c' ∧
        Cache_Get c' "a" =
          if decide (maxEntries c <= Z.of_nat (size (entries c))
                     ∧ head (keys c) = Some "a")
          then (EmptyString, false)
          else Cache_Get c "a".
Proof.
  intros c. apply (Cache_Set_other_keys c "b" "y" "a");
    [| reflexivity | discriminate].
  apply (cache_inv_room (empty_cache 1) "a" "x");
    [apply cache_inv_empty; lia | reflexivity | vm_compute; reflexivity].
Defined.

(** The cache fills up and stays full: after a run from the empty cache
    that [NewCache] returned, the number of entries is the number of
    insertions so far, capped at the capacity. *)
Theorem cache_size_law (capacity : Z) (c0 : Cache) os :
  1 <= capacity →
  NewCache capacity = Done c0 →
  ∃ c, run_new capacity os = Done c ∧
       length (keys c) = size (entries c) ∧
       size (entries c) =
         (length (insertions c0 os) `min` Z.to_nat capacity)%nat.
Proof.
  intros Hcap Hnew. unfold run_new. rewrite Hnew, bind_Done.
  apply NewCache_returned in Hnew as ->.
  pose proof (cache_inv_empty capacity Hcap) as Hinv0.
  destruct (run_ops_inv os _ Hinv0) as (c & Hrun & Hinv & Hmax).
  destruct (run_ops_log os _ [] Hinv0 eq_refl) as (c' & Hrun' & Hkeys).
  assert (c' = c) as -> by congruence.
  exists c. pose proof (inv_length c Hinv) as Hlen.
  split_and!; [done | done |].
  rewrite <- Hlen, Hkeys. simpl. apply recent_length.
Qed.

Lemma cache_size_law_witness :
  ∃ c, run_new 2 [OpSet "a" "1"; OpSet "a" "2"; OpSet "b" "3"; OpSet "c" "4"] = Done c ∧
       length (keys c) = size (entries c) ∧
       size (entries c) = 2%nat.
Proof.
  apply (cache_size_law 2 (empty_cache 2)
           [OpSet "a" "1"; OpSet "a" "2"; OpSet "b" "3"; OpSet "c" "4"]);
    [lia | reflexivity].
Defined.

Lemma run_sets_first_value (kvs : list (string * string)) : ∀ c,
  cache_inv c →
  Z.of_nat (size (entries c)) + Z.of_nat (length kvs) <= maxEntries c →
  ∃ c', run_ops c (sets kvs) = Done c' ∧
        ∀ k, entries c' !! k = match entries c !! k with
                               | Some v => Some v
                               | None => first_value k kvs
                               end.
Proof.
  induction kvs as [|[k0 v0] kvs IH]; intros c Hinv Hroom.
  - exists c. split; [done |]. intros k. by destruct (entries c !! k).
  - unfold sets. rewrite map_cons. fold (sets kvs). cbn [run_ops run_op fst snd].
    simpl length in Hroom.
    destruct (Cache_Set_cases c k0 v0 Hinv)
      as [[[old Hk] Hset] | [(Hk & Hlt & Hset) | (Hk & Hge & _)]]; [| | lia].
    + rewrite Hset, bind_Done.
      destruct (IH c Hinv ltac:(lia)) as (c' & Hrun & Hval).
      exists c'. split; [done |]. intros k. rewrite Hval.
      destruct (entries c !! k) as [v|] eqn:Hlook; [done |]. simpl.
      destruct (decide (k0 = k)) as [->|]; [congruence | done].
    + rewrite Hset, bind_Done.
      pose proof (cache_inv_room c k0 v0 Hinv Hk Hlt) as Hinv1.
      match type of Hinv1 with cache_inv ?c1 =>
        destruct (IH c1 Hinv1) as (c' & Hrun & Hval) end.
      { simpl. rewrite map_size_insert_None by done. lia. }
      exists c'. split; [done |]. intros k. rewrite Hval. simpl.
      destruct (decide (k0 = k)) as [->|Hne].
      * by rewrite lookup_insert_eq, Hk.
      * by rewrite lookup_insert_ne.
Qed.

(** First write wins: after at most [capacity] calls of [Set] on the empty
    cache that [NewCache] returned, a key reads as the first value that was
    set for it, and a key that was never set is not found. *)
Theorem first_write_wins (capacity : Z) (c0 : Cache)
    (kvs : list (string * string)) (k : string) :
  1 <= capacity →
  NewCache capacity = Done c0 →
  Z.of_nat (length kvs) <= capacity →
  ∃ c, run_new capacity (sets kvs) = Done c ∧
       Cache_Get c k = match first_value k kvs with
                       | Some v => (v, true)
                       | None => (EmptyString, false)
                       end.
Proof.
  intros Hcap Hnew Hlen. unfold run_new. rewrite Hnew, bind_Done.
  apply NewCache_returned in Hnew as ->.
  destruct (run_sets_first_value kvs (empty_cache capacity)
              (cache_inv_empty capacity Hcap)) as (c & Hrun & Hval).
  { simpl. rewrite map_size_empty. lia. }
  exists c. split; [done |].
  rewrite Cache_Get_lookup, Hval. simpl. by rewrite lookup_empty.
Qed.

Lemma first_write_wins_witness :
  ∃ c, run_new 3 (sets [("a", "1"); ("b", "2"); ("a", "3")]) = Done c ∧
       Cache_Get c "a" = ("1", true).
Proof.
  apply (first_write_wins 3 (empty_cache 3) [("a", "1"); ("b", "2"); ("a", "3")] "a");
    [lia | reflexivity | simpl; lia].
Defined.
End cache_more.

(** ** The line pipeline *)

Section pipeline_more.
Implicit Types (line s : string) (lines : list string) (c : Cache).

Lemma str_app_assoc s1 s2 s3 : (s1 +:+ s2) +:+ s3 = s1 +:+ (s2 +:+ s3).
Proof.
  induction s1 as [|ch s1 IH]; [reflexivity |].
  change (String ch ((s1 +:+ s2) +:+ s3) = String ch (s1 +:+ (s2 +:+ s3))).
  by rewrite IH.
Qed.

Lemma str_app_nil_r s : s +:+ EmptyString = s.
Proof.
  induction s as [|ch s IH]; [reflexivity |].
  change (String ch (s +:+ EmptyString) = String ch s). by rewrite IH.
Qed.

Lemma convertWithoutCache_scan_outputs lines e : ∀ w,
  Forall (fun line => contains line ":" = true) lines →
  ∃ outs, Forall2 is_output_of lines outs ∧
          convertWithoutCache_scan lines e w =
            Done {| written := w +:+ str_concat outs; flushed := true; ret := e |}.
Proof.
  induction lines as [|line lines IH]; intros w Hall.
  - exists []. split; [constructor |]. simpl. by rewrite str_app_nil_r.
  - apply Forall_cons in Hall as [Hc Hall].
    apply after_first_contains in Hc as [rest Hrest].
    rewrite convertWithoutCache_scan_cons, (line_output_colon _ _ Hrest), bind_Done.
    destruct (IH (w +:+ (fmt_Sprintf_s_colon_s (before_first ":" line)
                           (strings_ToUpper (hex_EncodeToString
                              (pack (chars (before_first ":" rest))))) +:+ newline))
                Hall) as (outs & Houts & Hrun).
    eexists (_ :: outs). split.
    + constructor; [| exact Houts].
      exists rest. eexists. split_and!; [done | apply binToHex_pack | | reflexivity].
      by rewrite hex_upper_length, pack_length, chars_length.
    + rewrite Hrun. simpl. unfold fmt_Sprintf_s_colon_s.
      by rewrite !str_app_assoc.
Qed.

(** The output of the pipeline without cache on lines that all have a
    [':']: one output line for each input line, in order - the size token,
    [':'], the hex encoding of the payload ([2 * ceil(len / 8)] digits) and
    a newline - then the flush, and the scanner's error as the result. *)
Theorem convertWithoutCache_output lines (e : option error) :
  Forall (fun line => contains line ":" = true) lines →
  ∃ outs, Forall2 is_output_of lines outs ∧
          convertWithoutCache (lines_source lines e) =
            Done {| written := str_concat outs; flushed := true; ret := e |}.
Proof.
  intros Hall.
  destruct (convertWithoutCache_scan_outputs lines e EmptyString Hall)
    as (outs & Houts & Hrun).
  exists outs. split; [done |]. exact Hrun.
Qed.

Lemma convertWithoutCache_output_witness :
  ∃ outs, Forall2 is_output_of ["4:01000001"; "x:1:y"] outs ∧
          convertWithoutCache (lines_source ["4:01000001"; "x:1:y"] None) =
            Done {| written := str_concat outs; flushed := true; ret := None |}.
Proof.
  apply (convertWithoutCache_output ["4:01000001"; "x:1:y"] None).
  apply (bool_decide_unpack _). vm_compute. exact I.
Defined.

Lemma convertWithCache_equiv (src : source) c :
  cache_inv c → cache_sound c →
  forget_cache (convertWithCache src c) = convertWithoutCache src.
Proof.
  intros Hinv Hsound. unfold convertWithCache, convertWithoutCache.
  destruct (openErr src); [reflexivity |].
  destruct (createErr src); [reflexivity |].
  by apply convertWithCache_scan_equiv.
Qed.

(** The cache only saves work: on any cache that satisfies the invariant
    and stores output lines only, and for any source - also one with lines
    that make the pipeline panic, or one whose files do not open - the
    cached pipeline ends as the pipeline without cache does. *)
Theorem convertWithCache_refines (src : source) c :
  cache_inv c → cache_sound c →
  forget_cache (convertWithCache src c) = convertWithoutCache src.
Proof. apply convertWithCache_equiv. Qed.

Lemma convertWithCache_refines_witness :
  forget_cache (convertWithCache (lines_source ["4:01"; "oops"] None) (empty_cache 2))
  = convertWithoutCache (lines_source ["4:01"; "oops"] None).
Proof.
  apply (convertWithCache_refines (lines_source ["4:01"; "oops"] None) (empty_cache 2)).
  - apply cache_inv_empty. lia.
  - apply cache_sound_empty.
Defined.

Lemma convertWithCache_scan_post lines e : ∀ c w c' r,
  cache_inv c → cache_sound c →
  convertWithCache_scan lines e c w = Done (c', r) →
  cache_inv c' ∧ cache_sound c' ∧ maxEntries c' = maxEntries c ∧
  ∀ k, k ∈ keys c' → k ∈ keys c ∨ k ∈ lines.
Proof.
  induction lines as [|line lines IH]; intros c w c' r Hinv Hsound Hrun.
  - injection Hrun as <- _. auto.
  - destruct (Cache_Get c line) as [v found] eqn:Hget. destruct found.
    + rewrite (convertWithCache_scan_hit _ _ _ _ _ _ Hget) in Hrun.
      destruct (IH _ _ _ _ Hinv Hsound Hrun) as (? & ? & ? & Hkeys).
      split_and!; [done | done | done |].
      intros k Hk. destruct (Hkeys k Hk); [by left | right; by right].
    + rewrite convertWithCache_scan_miss in Hrun by (by rewrite Hget).
      destruct (line_output_cases line) as [[v' Hout] | [p Hout]];
        rewrite Hout in Hrun; [| discriminate].
      rewrite bind_Done in Hrun.
      destruct (cache_inv_Set c line v' Hinv) as (c1 & Hset & Hinv1 & Hmax1).
      rewrite Hset, bind_Done in Hrun.
      pose proof (cache_sound_Set c c1 line v' Hinv Hsound Hout Hset) as Hsound1.
      destruct (IH _ _ _ _ Hinv1 Hsound1 Hrun) as (? & ? & Hmax & Hkeys).
      split_and!; [done | done | congruence |].
      intros k Hk. destruct (Hkeys k Hk) as [Hk1 | ?]; [| right; by right].
      destruct (Cache_Set_cases c line v' Hinv)
        as [[_ Heq] | [(_ & _ & Heq) | (_ & _ & oldest & ks & Hks & Heq)]];
        rewrite Heq in Hset; injection Hset as <-; simpl in Hk1.
      * by left.
      * apply elem_of_app in Hk1 as [? | ->%list_elem_of_singleton];
          [by left | right; left].
      * apply elem_of_app in Hk1 as [? | ->%list_elem_of_singleton];
          [left; rewrite Hks; by right | right; left].
Qed.

(** What a cached run leaves in the cache that [NewCache] returned to
    [main]: the invariant holds, every stored key is a line of the input,
    and every stored value is the output line of its key. *)
Theorem main_cached_cache_state (capacity : Z) (c0 : Cache) (src : source) :
  1 <= capacity →
  NewCache capacity = Done c0 →
  Forall (fun line => contains line ":" = true) (scanned src) →
  ∃ c r, main_cached capacity src = Done (c, r) ∧
         cache_inv c ∧ maxEntries c = capacity ∧
         (∀ k, k ∈ keys c → k ∈ scanned src) ∧
         (∀ k v, Cache_Get c k = (v, true) → line_output k = Done (v, None)).
Proof.
  intros Hcap Hnew Hcolon.
  pose proof (cache_inv_empty capacity Hcap) as Hinv0.
  pose proof (cache_sound_empty capacity) as Hsound0.
  unfold main_cached. rewrite Hnew, bind_Done.
  apply NewCache_returned in Hnew as ->.
  assert (∃ c r, convertWithCache src (empty_cache capacity) = Done (c, r))
    as (c & r & Hrun).
  { pose proof (convertWithCache_equiv src _ Hinv0 Hsound0) as Heq.
    unfold convertWithoutCache in Heq.
    destruct (convertWithCache src (empty_cache capacity)) as [[c r]|p]; [eauto |].
    exfalso. simpl in Heq.
    destruct (openErr src); [discriminate |].
    destruct (createErr src); [discriminate |].
    destruct (convertWithoutCache_scan_done (scanned src) (scanErr src)
                EmptyString Hcolon) as [out Hout].
    rewrite Hout in Heq. discriminate. }
  exists c, r. split; [done |].
  unfold convertWithCache in Hrun.
  assert (cache_inv c ∧ cache_sound c ∧ maxEntries c = capacity ∧
          ∀ k, k ∈ keys c → k ∈ scanned src) as (Hinv & Hsound & Hmax & Hkeys).
  { destruct (openErr src);
      [injection Hrun as <- _; split_and!; [done | done | done |];
       intros k Hk; by apply elem_of_nil in Hk |].
    destruct (createErr src);
      [injection Hrun as <- _; split_and!; [done | done | done |];
       intros k Hk; by apply elem_of_nil in Hk |].
    destruct (convertWithCache_scan_post _ _ _ _ _ _ Hinv0 Hsound0 Hrun)
      as (? & ? & ? & Hkeys).
    split_and!; [done | done | done |].
    intros k Hk. destruct (Hkeys k Hk) as [Hnil | ?]; [| done].
    by apply elem_of_nil in Hnil. }
  split_and!; [done | done | done |].
  intros k v Hget. apply Cache_Get_found in Hget. by apply Hsound.
Qed.

Lemma main_cached_cache_state_witness :
  ∃ c r, main_cached 1 (lines_source ["4:01"; "5:10"; "4:01"] None) = Done (c, r) ∧
         cache_inv c ∧ maxEntries c = 1 ∧
         (∀ k, k ∈ keys c → k ∈ ["4:01"; "5:10"; "4:01"]) ∧
         (∀ k v, Cache_Get c k = (v, true) → line_output k = Done (v, None)).
Proof.
  apply (main_cached_cache_state 1 (empty_cache 1)
           (lines_source ["4:01"; "5:10"; "4:01"] None));
    [lia | reflexivity | apply (bool_decide_unpack _); vm_compute; exact I].
Defined.


End pipeline_more.

(** ** The program entry *)

Section main_more.
Variable Sscanf_d : string → option Z.
Variable files : string → string → source.
Implicit Types (prog mode inputFile outputFile arg : string) (tl : list string).

Lemma main_args prog mode inputFile outputFile tl :
  main Sscanf_d files (prog :: mode :: inputFile :: outputFile :: tl) =
    cache ← NewCache (match tl with
                      | arg :: _ => match Sscanf_d arg with
                                    | Some n => n
                                    | None => 5000
                                    end
                      | [] => 5000
                      end);
    if String.eqb mode "compress-cached" then
      '(_, r) ← convertWithCache (files inputFile outputFile) cache;
      Done (report "Cached conversion" r)
    else if String.eqb mode "compress-noncached" then
      r ← convertWithoutCache (files inputFile outputFile);
      Done (report "Non-cached conversion" r)
    else if String.eqb mode "decompress-cached" then
      '(_, r) ← convertWithCache (files inputFile outputFile) cache;
      Done (report "Cached decompression" r)
    else if String.eqb mode "decompress-noncached" then
      r ← convertWithoutCache (files inputFile outputFile);
      Done (report "Non-cached decompression" r)
    else Done {| stdout := [UnknownMode]; converted := None |}.
Proof. destruct tl as [|arg tl]; reflexivity. Qed.

(** The two decompress modes run the binary-to-hex pipelines of the two
    compress modes: for all files and arguments the pipeline result is the
    same, and [hexToBin] has no part in it. *)
Theorem decompress_is_compress prog inputFile outputFile tl :
  conversion_of (main Sscanf_d files
                   (prog :: "decompress-cached" :: inputFile :: outputFile :: tl))
  = conversion_of (main Sscanf_d files
                     (prog :: "compress-cached" :: inputFile :: outputFile :: tl))
  ∧ conversion_of (main Sscanf_d files
                     (prog :: "decompress-noncached" :: inputFile :: outputFile :: tl))
    = conversion_of (main Sscanf_d files
                       (prog :: "compress-noncached" :: inputFile :: outputFile :: tl)).
Proof.
  rewrite !main_args. cbn [String.eqb Ascii.eqb Bool.eqb].
  destruct (NewCache _) as [cache|p]; [| done]. rewrite !bind_Done.
  split.
  - destruct (convertWithCache _ cache) as [[c r]|p]; reflexivity.
  - destruct (convertWithoutCache _) as [r|p]; reflexivity.
Qed.

(** A negative cache size makes [main] panic in [NewCache], before any file
    is opened, in every mode: also in the modes without cache and for an
    unknown mode. *)
Theorem main_negative_cache_size prog mode inputFile outputFile arg tl (n : Z) :
  Sscanf_d arg = Some n → n < 0 →
  main Sscanf_d files (prog :: mode :: inputFile :: outputFile :: arg :: tl)
    = Panic MakesliceCapOutOfRange.
Proof.
  intros Hscan Hneg. rewrite main_args, Hscan. unfold NewCache.
  destruct (Z.ltb_spec n 0); [reflexivity | lia].
Qed.

(** A cache size beyond the limit of [makeslice] (more than 2^44 entries on
    the 64-bit platforms) makes [main] panic in [NewCache] as a negative
    one does, in every mode. *)
Theorem main_huge_cache_size prog mode inputFile outputFile arg tl (n : Z) :
  Sscanf_d arg = Some n → 2 ^ 44 < n →
  main Sscanf_d files (prog :: mode :: inputFile :: outputFile :: arg :: tl)
    = Panic MakesliceCapOutOfRange.
Proof.
  intros Hscan Hbig. rewrite main_args, Hscan.
  rewrite NewCache_too_large; [reflexivity |].
  unfold maxAlloc, string_size. change (2 ^ 48) with (16 * 2 ^ 44). lia.
Qed.

(** With the default cache size, or a given one of at least 1, the cached
    and the non-cached mode of [main] end with the same pipeline result. *)
Theorem main_cached_is_noncached prog inputFile outputFile tl :
  (∀ arg n, head tl = Some arg → Sscanf_d arg = Some n → 1 <= n) →
  conversion_of (main Sscanf_d files
                   (prog :: "compress-cached" :: inputFile :: outputFile :: tl))
  = conversion_of (main Sscanf_d files
                     (prog :: "compress-noncached" :: inputFile :: outputFile :: tl)).
Proof.
  intros Hsize. rewrite !main_args. cbn [String.eqb Ascii.eqb Bool.eqb].
  assert (1 <= match tl with
               | arg :: _ => match Sscanf_d arg with
                             | Some n => n
                             | None => 5000
                             end
               | [] => 5000
               end) as Hcap.
  { destruct tl as [|arg tl']; [lia |].
    destruct (Sscanf_d arg) as [n|] eqn:Hscan; [| lia].
    by apply (Hsize arg n). }
  destruct (NewCache _) as [c0|p] eqn:Hnew; [| reflexivity].
  apply NewCache_returned in Hnew as ->. rewrite !bind_Done.
  pose proof (convertWithCache_equiv (files inputFile outputFile) _
                (cache_inv_empty _ Hcap) (cache_sound_empty _)) as Heq.
  destruct (convertWithCache _ _) as [[c r]|p]; simpl in Heq; rewrite <- Heq;
    reflexivity.
Qed.
End main_more.

Lemma main_negative_cache_size_witness :
  main (fun s => if String.eqb s "-1" then Some (-1) else None)
       (fun _ _ => lines_source ["4:01000001"] None)
       ["convert"; "compress-noncached"; "mat.in"; "mat.in.x"; "-1"]
  = Panic MakesliceCapOutOfRange.
Proof.
  apply (main_negative_cache_size
           (fun s => if String.eqb s "-1" then Some (-1) else None)
           (fun _ _ => lines_source ["4:01000001"] None)
           "convert" "compress-noncached" "mat.in" "mat.in.x" "-1" [] (-1));
    [reflexivity | lia].
Defined.

Lemma main_huge_cache_size_witness :
  main (fun s => if String.eqb s "4611686018427387904" then Some (2 ^ 62) else None)
       (fun _ _ => lines_source ["4:01000001"] None)
       ["convert"; "compress-cached"; "mat.in"; "mat.in.x"; "4611686018427387904"]
  = Panic MakesliceCapOutOfRange.
Proof.
  apply (main_huge_cache_size
           (fun s => if String.eqb s "4611686018427387904" then Some (2 ^ 62) else None)
           (fun _ _ => lines_source ["4:01000001"] None)
           "convert" "compress-cached" "mat.in" "mat.in.x" "4611686018427387904" [] (2 ^ 62));
    [reflexivity | reflexivity].
Defined.

Lemma main_cached_is_noncached_witness :
  conversion_of (main (fun s => if String.eqb s "2" then Some 2 else None)
                   (fun _ _ => lines_source ["4:01000001"; "4:01000001"] None)
                   ["convert"; "compress-cached"; "mat.in"; "mat.in.x"; "2"])
  = conversion_of (main (fun s => if String.eqb s "2" then Some 2 else None)
                     (fun _ _ => lines_source ["4:01000001"; "4:01000001"] None)
                     ["convert"; "compress-noncached"; "mat.in"; "mat.in.x"; "2"]).
Proof.
  apply (main_cached_is_noncached
           (fun s => if String.eqb s "2" then Some 2 else None)
           (fun _ _ => lines_source ["4:01000001"; "4:01000001"] None)
           "convert" "mat.in" "mat.in.x" ["2"]).
  intros arg n Harg Hscan. simpl in Harg. injection Harg as <-.
  vm_compute in Hscan. injection Hscan as <-. lia.
Defined.
